(** * Mandelbrot escape-time rendering: the notebook's Python, embedded

    The development follows [mandelbrot_numba.ipynb]: the escape function
    [mandel], the CPU renderer [create_fractal] (plain and [@autojit]), and
    the CUDA kernel [mandel_kernel] with its launch.

    Numbers are the ones the code computes with: Python [float] and numba
    [f8] are IEEE-754 binary64, here Rocq's primitive [float]; Python [int]
    is [Z]; the [uint8] and [uint32] types are [Z] with the wrap-around
    written out, and the conversions of a Python [int] to a C [long] or an
    [int64] raise [OverflowError] outside [-2^63, 2^63). *)

From Stdlib Require Import ZArith Floats Lia.
From stdpp Require Import base option list numbers.

Local Open Scope Z_scope.

(** ** Python values *)

(** [float(n)] for an [int], as in [x * pixel_size_x]: the nearest
    binary64, ties to even.  (Python raises [OverflowError] beyond the
    binary64 range, where this gives an infinity; pixel indices and image
    extents are far below it.) *)
Definition float_of_int (n : Z) : float :=
  SF2Prim (binary_normalize prec emax n 0 false).

(** A Python [complex]: two floats. *)
Record complex := Complex { real : float; imag : float }.

(** [a * b] on [complex] (CPython's [_Py_c_prod]). *)
Definition c_prod (a b : complex) : complex :=
  Complex (real a * real b - imag a * imag b)%float
          (real a * imag b + imag a * real b)%float.

(** [a + b] on [complex] (CPython's [_Py_c_sum]). *)
Definition c_sum (a b : complex) : complex :=
  Complex (real a + real b)%float (imag a + imag b)%float.

(** The literal [0.0j]. *)
Definition zero_j : complex := Complex 0%float 0%float.

(** [range(n)]: [0, 1, ..., n-1], empty when [n <= 0]. *)
Definition range (n : Z) : list Z := seqZ 0 n.

(** [range(start, stop, step)] for [step > 0]:
    [start, start+step, ...] while below [stop].  Python rejects [step = 0]
    and counts down for [step < 0]; the kernel only takes positive strides,
    and the list is empty otherwise. *)
Definition range3 (start stop step : Z) : list Z :=
  if decide (0 < step)
  then (fun k => start + k * step) <$> seqZ 0 ((stop - start + step - 1) `div` step)
  else [].

(** Exceptions the code can raise. *)
Inductive exn := ZeroDivisionError | IndexError | OverflowError.

(** How a statement that works on a mutable object of type [S] ends: it
    completes and leaves the object as [s], or it raises [e] and the object
    is as the statement left it, [s]. *)
Inductive result (S : Type) : Type :=
  | Ok (s : S)
  | Raise (e : exn) (s : S).
Arguments Ok {S} s.
Arguments Raise {S} e s.

(** [a / n] with [a] a float and [n] an int: Python raises on a zero
    divisor and otherwise divides in binary64. *)
Definition truediv (a : float) (n : Z) : exn + float :=
  if decide (n = 0) then inl ZeroDivisionError
  else inr (a / float_of_int n)%float.

(** A [for] loop over a list whose body may raise; the loop state is
    threaded through the iterations, and an exception leaves the loop. *)
Fixpoint for_in {A S : Type} (l : list A) (body : A -> S -> result S) (s : S)
  : result S :=
  match l with
  | [] => Ok s
  | i :: l' =>
      match body i s with
      | Ok s' => for_in l' body s'
      | Raise e s' => Raise e s'
      end
  end.

(** ** The escape function *)

(** The test [z.real*z.real + z.imag*z.imag >= 4]. *)
Definition escaped (z : complex) : bool :=
  (4 <=? real z * real z + imag z * imag z)%float.

(** The body of [for i in range(max_iters)]: [Some i] when the loop returns
    [i], [None] when it runs out.  [ticks] is ghost: it counts the executions
    of [z = z*z + c]. *)
Fixpoint mandel_loop (c z : complex) (indices : list Z) (ticks : nat)
  : option Z * nat :=
  match indices with
  | [] => (None, ticks)
  | i :: rest =>
      let z := c_sum (c_prod z z) c in
      let ticks := S ticks in
      if escaped z then (Some i, ticks)
      else mandel_loop c z rest ticks
  end.

(** [mandel(x, y, max_iters)] with the number of updates it executed. *)
Definition mandel_run (x y : float) (max_iters : Z) : Z * nat :=
  let c := Complex x y in
  let z := zero_j in
  match mandel_loop c z (range max_iters) 0 with
  | (Some i, ticks) => (i, ticks)
  | (None, ticks) => (max_iters, ticks)
  end.

Definition mandel (x y : float) (max_iters : Z) : Z :=
  fst (mandel_run x y max_iters).

Definition mandel_updates (x y : float) (max_iters : Z) : nat :=
  snd (mandel_run x y max_iters).

(** ** numpy arrays of [uint8] *)

(** A 2D array: its shape [(shape0, shape1)] and its elements by row.
    [writes] is ghost: the positions [(row, column)] stored so far, oldest
    first. *)
Record ndarray := NDArray {
  shape0 : nat;
  shape1 : nat;
  rows : list (list Z);
  writes : list (Z * Z)
}.

(** [np.zeros((h, w), dtype = np.uint8)]. *)
Definition zeros (h w : nat) : ndarray :=
  NDArray h w (replicate h (replicate w 0)) [].

(** The array has the rows and columns its shape announces. *)
Definition wf (a : ndarray) : Prop :=
  length (rows a) = shape0 a /\ Forall (fun r => length r = shape1 a) (rows a).

(** Conversion to [uint8], as storing a C integer into the [uint8] array
    does in the numpy 1.x of the notebook and in numba's compiled code: the
    low eight bits are kept. *)
Definition uint8 (v : Z) : Z := v `mod` 256.

(** An index along an axis of extent [n]: negative indices count from the
    end, anything else out of range is an [IndexError]. *)
Definition index (i : Z) (n : nat) : option Z :=
  if decide (0 <= i < Z.of_nat n) then Some i
  else if decide (- Z.of_nat n <= i < 0) then Some (i + Z.of_nat n)
  else None.

(** [a[y, x] = v] for a Python [int] [v].  numpy 1.x first converts [v] to
    a C [long]: outside [-2^63, 2^63) that is an [OverflowError] and the
    array is left as it was; inside, the [long] is cast to [uint8]. *)
Definition setitem (a : ndarray) (y x v : Z) : result ndarray :=
  match index y (shape0 a), index x (shape1 a) with
  | Some r, Some c =>
      if decide (- 2 ^ 63 <= v < 2 ^ 63)
      then Ok (NDArray (shape0 a) (shape1 a)
                 (alter (fun row => <[Z.to_nat c := uint8 v]> row)
                        (Z.to_nat r) (rows a))
                 (writes a ++ [(r, c)]))
      else Raise OverflowError a
  | _, _ => Raise IndexError a
  end.

(** [a[y, x]]; [None] stands for [IndexError]. *)
Definition getitem (a : ndarray) (y x : Z) : option Z :=
  r ← index y (shape0 a);
  c ← index x (shape1 a);
  row ← rows a !! Z.to_nat r;
  row !! Z.to_nat c.

(** ** The CPU renderer *)

Definition create_fractal (min_x max_x min_y max_y : float) (image : ndarray)
    (iters : Z) : result ndarray :=
  let height := Z.of_nat (shape0 image) in
  let width := Z.of_nat (shape1 image) in
  match truediv (max_x - min_x) width with
  | inl e => Raise e image
  | inr pixel_size_x =>
  match truediv (max_y - min_y) height with
  | inl e => Raise e image
  | inr pixel_size_y =>
  for_in (range width) (fun x image =>
    let real := (min_x + float_of_int x * pixel_size_x)%float in
    for_in (range height) (fun y image =>
      let imag := (min_y + float_of_int y * pixel_size_y)%float in
      let color := mandel real imag iters in
      setitem image y x color) image) image
  end end.

(** ** The [@autojit] cell

    The notebook defines [mandel] and [create_fractal] a second time, with
    the same text, under numba's [@autojit].  The compiled functions take
    their integer argument as an [int64]: a call from Python with a cap
    outside [-2^63, 2^63) raises [OverflowError] when the argument is
    converted, before the function runs.  Inside that range the compiled
    integers cannot overflow (the loop index stays below the cap) and the
    store casts the [int64] to [uint8], as [setitem] does. *)
Module Autojit.

(** The compiled body of [mandel], as compiled code calls it. *)
Definition mandel (x y : float) (max_iters : Z) : Z :=
  let c := Complex x y in
  let z := zero_j in
  match fst (mandel_loop c z (range max_iters) 0) with
  | Some i => i
  | None => max_iters
  end.

(** [create_fractal] as Python calls it: the conversion of [iters] to
    [int64], then the compiled body. *)
Definition create_fractal (min_x max_x min_y max_y : float) (image : ndarray)
    (iters : Z) : result ndarray :=
  if decide (- 2 ^ 63 <= iters < 2 ^ 63) then
  let height := Z.of_nat (shape0 image) in
  let width := Z.of_nat (shape1 image) in
  match truediv (max_x - min_x) width with
  | inl e => Raise e image
  | inr pixel_size_x =>
  match truediv (max_y - min_y) height with
  | inl e => Raise e image
  | inr pixel_size_y =>
  for_in (range width) (fun x image =>
    let real := (min_x + float_of_int x * pixel_size_x)%float in
    for_in (range height) (fun y image =>
      let imag := (min_y + float_of_int y * pixel_size_y)%float in
      let color := mandel real imag iters in
      setitem image y x color) image) image
  end end
  else Raise OverflowError image.

End Autojit.

(** ** The CUDA kernel *)

(** The [x] and [y] components of [gridDim], [blockDim], [blockIdx] and
    [threadIdx]. *)
Record dim := Dim { dim_x : Z; dim_y : Z }.

(** A launch configuration [kernel[griddim, blockdim]]. *)
Record config := Config { gridDim : dim; blockDim : dim }.

(** One thread of the launch. *)
Record thread := Thread { blockIdx : dim; threadIdx : dim }.

(** All the threads of a launch. *)
Definition threads (cfg : config) : list thread :=
  bx ← seqZ 0 (dim_x (gridDim cfg));
  b_y ← seqZ 0 (dim_y (gridDim cfg));
  tx ← seqZ 0 (dim_x (blockDim cfg));
  t_y ← seqZ 0 (dim_y (blockDim cfg));
  [Thread (Dim bx b_y) (Dim tx t_y)].

(** [cuda.grid(2)]: [blockDim * blockIdx + threadIdx] on each axis. *)
Definition grid2 (cfg : config) (t : thread) : Z * Z :=
  (dim_x (blockDim cfg) * dim_x (blockIdx t) + dim_x (threadIdx t),
   dim_y (blockDim cfg) * dim_y (blockIdx t) + dim_y (threadIdx t)).

(** Conversion to [uint32]. *)
Definition uint32 (v : Z) : Z := v `mod` 2 ^ 32.

(** [cuda.jit(restype=uint32, argtypes=[f8, f8, uint32], device=True)(mandel)]:
    the compiled body of [mandel] at the types of the signature.  The cap
    and the result are [uint32]: a value in [0, 2^32) is taken as it is,
    another one is reduced to its low 32 bits.  The device's binary64
    operations are taken to be the host's. *)
Definition mandel_gpu (x y : float) (max_iters : Z) : Z :=
  uint32 (Autojit.mandel x y (uint32 max_iters)).

(** The kernel as one thread runs it.  Signature
    [f8, f8, f8, f8, uint8[:,:], uint32]; the divisions are device
    divisions, which do not raise.  The value stored is a [uint32], always
    inside the range [setitem] accepts, and is cast to [uint8]. *)
Definition mandel_kernel (cfg : config) (t : thread)
    (min_x max_x min_y max_y : float) (image : ndarray) (iters : Z)
  : result ndarray :=
  let iters := uint32 iters in
  let height := Z.of_nat (shape0 image) in
  let width := Z.of_nat (shape1 image) in
  let pixel_size_x := ((max_x - min_x) / float_of_int width)%float in
  let pixel_size_y := ((max_y - min_y) / float_of_int height)%float in
  let '(startX, startY) := grid2 cfg t in
  let gridX := dim_x (gridDim cfg) * dim_x (blockDim cfg) in
  let gridY := dim_y (gridDim cfg) * dim_y (blockDim cfg) in
  for_in (range3 startX width gridX) (fun x image =>
    let real := (min_x + float_of_int x * pixel_size_x)%float in
    for_in (range3 startY height gridY) (fun y image =>
      let imag := (min_y + float_of_int y * pixel_size_y)%float in
      setitem image y x (mandel_gpu real imag iters)) image) image.

(** [mandel_kernel[griddim, blockdim](...)]: every thread of [schedule]
    runs the kernel on the device array, one after the other.  The device
    fixes the order; the theorems quantify over it. *)
Definition launch (cfg : config) (schedule : list thread)
    (min_x max_x min_y max_y : float) (d_image : ndarray) (iters : Z)
  : result ndarray :=
  for_in schedule (fun t d_image =>
    mandel_kernel cfg t min_x max_x min_y max_y d_image iters) d_image.

(** The array a call leaves behind, and the positions stored in it. *)
Definition left_behind (r : result ndarray) : ndarray :=
  match r with
  | Ok a => a
  | Raise _ a => a
  end.

Definition written (r : result ndarray) : list (Z * Z) :=
  writes (left_behind r).

(** How many times position [p] occurs in a list of stores. *)
Definition times_written (p : Z * Z) (l : list (Z * Z)) : nat :=
  length (filter (fun q => q = p) l).

(** ** The iteration in the words of the specification *)

(** [orbit c n] is [z_n], with [z_0 = 0] and [z_{n+1} = z_n^2 + c]. *)
Fixpoint orbit (c : complex) (n : nat) : complex :=
  match n with
  | O => zero_j
  | S k => c_sum (c_prod (orbit c k) (orbit c k)) c
  end.

(** The squared modulus of [z_{i+1}] reaches or exceeds 4. *)
Definition escapes_at (x y : float) (i : Z) : Prop :=
  escaped (orbit (Complex x y) (S (Z.to_nat i))) = true.

(** [i] is the smallest index at which the point escapes. *)
Definition first_escape (x y : float) (i : Z) : Prop :=
  0 <= i /\ escapes_at x y i /\ forall j, 0 <= j < i -> ~ escapes_at x y j.

(** ** The coordinate mapper in the words of the specification *)

(** [pixel_size = (max - min) / n] along an axis of [n] pixels. *)
Definition pixel_size (lo hi : float) (n : Z) : float :=
  ((hi - lo) / float_of_int n)%float.

(** The sample point of pixel [k] along that axis: [min + k * pixel_size]. *)
Definition coordinate (lo hi : float) (n k : Z) : float :=
  (lo + float_of_int k * pixel_size lo hi n)%float.

(** The iteration count of pixel [(x, y)] of a [w] by [h] image. *)
Definition pixel_count (min_x max_x min_y max_y : float) (h w : nat)
    (iters : Z) (x y : Z) : Z :=
  mandel (coordinate min_x max_x (Z.of_nat w) x)
         (coordinate min_y max_y (Z.of_nat h) y) iters.

(** The same through the device function. *)
Definition device_pixel_count (min_x max_x min_y max_y : float) (h w : nat)
    (iters : Z) (x y : Z) : Z :=
  mandel_gpu (coordinate min_x max_x (Z.of_nat w) x)
             (coordinate min_y max_y (Z.of_nat h) y) (uint32 iters).

(** Clamping to [0, 255], in the words of the specification. *)
Definition clamp255 (v : Z) : Z := Z.max 0 (Z.min 255 v).

(** ** Predicates of the proofs *)

(** An array whose shape is [(h, w)]. *)
Definition shaped (h w : nat) (a : ndarray) : Prop :=
  wf a /\ shape0 a = h /\ shape1 a = w.

(** [painted f P log a a']: [a'] is [a] after the stores [log], which set
    every pixel [(x, y)] satisfying [P] to [f x y] and touch no other. *)
Definition painted (f : Z -> Z -> Z) (P : Z -> Z -> Prop) (log : list (Z * Z))
    (a a' : ndarray) : Prop :=
  wf a' /\ shape0 a' = shape0 a /\ shape1 a' = shape1 a /\
  writes a' = writes a ++ log /\
  forall y x, 0 <= y < Z.of_nat (shape0 a) -> 0 <= x < Z.of_nat (shape1 a) ->
    (P x y -> getitem a' y x = Some (uint8 (f x y))) /\
    (~ P x y -> getitem a' y x = getitem a y x).

(** The positions stored by [for x in xs: for y in ys: image[y, x] = ...]. *)
Definition stores (xs ys : list Z) : list (Z * Z) :=
  x ← xs; y ← ys; [(y, x)].

(** Every component of the launch configuration is positive. *)
Definition positive_config (cfg : config) : Prop :=
  0 < dim_x (gridDim cfg) /\ 0 < dim_y (gridDim cfg) /\
  0 < dim_x (blockDim cfg) /\ 0 < dim_y (blockDim cfg).

(** The block and thread indices lie inside the grid and the block. *)
Definition valid_thread (cfg : config) (t : thread) : Prop :=
  0 <= dim_x (blockIdx t) < dim_x (gridDim cfg) /\
  0 <= dim_y (blockIdx t) < dim_y (gridDim cfg) /\
  0 <= dim_x (threadIdx t) < dim_x (blockDim cfg) /\
  0 <= dim_y (threadIdx t) < dim_y (blockDim cfg).

(** The columns and the lines a thread's two loops run over. *)
Definition thread_columns (cfg : config) (t : thread) (width : Z) : list Z :=
  range3 (fst (grid2 cfg t)) width (dim_x (gridDim cfg) * dim_x (blockDim cfg)).

Definition thread_lines (cfg : config) (t : thread) (height : Z) : list Z :=
  range3 (snd (grid2 cfg t)) height (dim_y (gridDim cfg) * dim_y (blockDim cfg)).

(** The positions one thread stores in an image of [h] lines and [w]
    columns. *)
Definition thread_stores (cfg : config) (h w : nat) (t : thread)
  : list (Z * Z) :=
  stores (thread_columns cfg t (Z.of_nat w)) (thread_lines cfg t (Z.of_nat h)).

(** ** Examples *)

Example mandel_origin_20 : mandel 0 0 20 = 20.
Proof. vm_compute. reflexivity. Qed.

Example mandel_two_20 : mandel 2 0 20 = 0.
Proof. vm_compute. reflexivity. Qed.

Example mandel_inside : mandel (-0.5) 0 20 = 20.
Proof. vm_compute. reflexivity. Qed.

Example mandel_outside : mandel 0.5 0.5 20 = 4.
Proof. vm_compute. reflexivity. Qed.

Example float_of_int_1536 : float_of_int 1536 = 1536%float.
Proof. vm_compute. reflexivity. Qed.

Example create_fractal_3x2 :
  create_fractal (-2) 1 (-1) 1 (zeros 2 3) 20
  = Ok (NDArray 2 3 [[0; 2; 20]; [0; 20; 20]]
          [(0, 0); (1, 0); (0, 1); (1, 1); (0, 2); (1, 2)]).
Proof. vm_compute. reflexivity. Qed.

Example launch_3x2 :
  let cfg := Config (Dim 1 2) (Dim 2 1) in
  launch cfg (threads cfg) (-2) 1 (-1) 1 (zeros 2 3) 20
  = Ok (NDArray 2 3 [[0; 2; 20]; [0; 20; 20]]
          [(0, 0); (0, 2); (0, 1); (1, 0); (1, 2); (1, 1)]).
Proof. vm_compute. reflexivity. Qed.

(** More threads than pixels: 16 threads for 6 pixels; ten of them store
    nothing. *)
Example launch_3x2_many_threads :
  let cfg := Config (Dim 2 2) (Dim 2 2) in
  length (threads cfg) = 16%nat /\
  launch cfg (threads cfg) (-2) 1 (-1) 1 (zeros 2 3) 20
  = Ok (NDArray 2 3 [[0; 2; 20]; [0; 20; 20]]
          [(0, 0); (1, 0); (0, 1); (1, 1); (0, 2); (1, 2)]).
Proof. vm_compute. split; reflexivity. Qed.

(** ** The escape function: the loop against the orbit *)

Section EscapeLoop.

Variable c : complex.

(** What the loop returns when it is entered at index [k] with [z = z_k]:
    the first escaping index of the window, or nothing; and how far the tick
    counter moves. *)
Lemma mandel_loop_spec (m : nat) : forall (k t : nat),
  (exists i : nat,
      (k <= i < k + m)%nat /\
      escaped (orbit c (S i)) = true /\
      (forall j : nat, (k <= j < i)%nat -> escaped (orbit c (S j)) = false) /\
      mandel_loop c (orbit c k) (seqZ (Z.of_nat k) (Z.of_nat m)) t
      = (Some (Z.of_nat i), (t + (i - k) + 1)%nat)) \/
  ((forall j : nat, (k <= j < k + m)%nat -> escaped (orbit c (S j)) = false) /\
   mandel_loop c (orbit c k) (seqZ (Z.of_nat k) (Z.of_nat m)) t
   = (None, (t + m)%nat)).
Proof.
  induction m as [|m IH]; intros k t.
  - right. split; [intros j Hj; lia|].
    simpl. f_equal. lia.
  - rewrite seqZ_cons by lia.
    replace (Z.succ (Z.of_nat k)) with (Z.of_nat (S k)) by lia.
    replace (Z.pred (Z.of_nat (S m))) with (Z.of_nat m) by lia.
    cbn [mandel_loop].
    change (c_sum (c_prod (orbit c k) (orbit c k)) c) with (orbit c (S k)).
    destruct (escaped (orbit c (S k))) eqn:Hesc.
    + left. exists k. repeat split; try lia; [exact Hesc|].
      f_equal. lia.
    + destruct (IH (S k) (S t)) as [(i & Hi & He & Hbefore & Hrun)|[Hnone Hrun]].
      * left. exists i. repeat split; try lia; [exact He| |].
        -- intros j Hj. destruct (decide (j = k)) as [->|Hne]; [exact Hesc|].
           apply Hbefore. lia.
        -- rewrite Hrun. f_equal. lia.
      * right. split.
        -- intros j Hj. destruct (decide (j = k)) as [->|Hne]; [exact Hesc|].
           apply Hnone. lia.
        -- rewrite Hrun. f_equal. lia.
Qed.

End EscapeLoop.

Lemma escapes_at_false (x y : float) (j : nat) :
  escaped (orbit (Complex x y) (S j)) = false -> ~ escapes_at x y (Z.of_nat j).
Proof.
  unfold escapes_at. rewrite Nat2Z.id. intros H1 H2. congruence.
Qed.

(** The two ways a call ends, with its update count. *)
Lemma mandel_run_cases (x y : float) (n : Z) :
  (exists i, 0 <= i < n /\ first_escape x y i /\
             mandel_run x y n = (i, S (Z.to_nat i))) \/
  ((forall j, 0 <= j < n -> ~ escapes_at x y j) /\
   mandel_run x y n = (n, Z.to_nat n)).
Proof.
  unfold mandel_run, range.
  destruct (decide (n <= 0)) as [Hn|Hn].
  - right. split; [intros j Hj; lia|].
    rewrite seqZ_nil by exact Hn. simpl. f_equal. lia.
  - destruct (mandel_loop_spec (Complex x y) (Z.to_nat n) 0 0)
      as [(i & Hi & He & Hbefore & Hrun)|[Hnone Hrun]];
      change (Z.of_nat 0) with 0 in Hrun; rewrite Z2Nat.id in Hrun by lia;
      change (orbit (Complex x y) 0) with zero_j in Hrun; rewrite Hrun.
    + left. exists (Z.of_nat i). split; [lia|]. split.
      * split; [lia|]. split.
        -- unfold escapes_at. rewrite Nat2Z.id. exact He.
        -- intros j Hj. replace j with (Z.of_nat (Z.to_nat j)) by lia.
           apply escapes_at_false, Hbefore. lia.
      * rewrite Nat2Z.id. f_equal. lia.
    + right. split; [|reflexivity].
      intros j Hj. replace j with (Z.of_nat (Z.to_nat j)) by lia.
      apply escapes_at_false, Hnone. lia.
Qed.

Lemma first_escape_unique (x y : float) (i i' : Z) :
  first_escape x y i -> first_escape x y i' -> i = i'.
Proof.
  intros (Hi & He & Hmin) (Hi' & He' & Hmin').
  destruct (Z.lt_trichotomy i i') as [Hlt|[Heq|Hgt]]; [|exact Heq|].
  - exfalso. apply (Hmin' i); [lia|exact He].
  - exfalso. apply (Hmin i'); [lia|exact He'].
Qed.

Lemma mandel_escape (x y : float) (n i : Z) :
  i < n -> first_escape x y i -> mandel_run x y n = (i, S (Z.to_nat i)).
Proof.
  intros Hin Hfirst.
  destruct (mandel_run_cases x y n) as [(i' & Hi' & Hfirst' & Hrun)|[Hnone _]].
  - rewrite (first_escape_unique _ _ _ _ Hfirst Hfirst'). exact Hrun.
  - destruct Hfirst as (Hi & He & _). exfalso. apply (Hnone i); [lia|exact He].
Qed.

Lemma mandel_no_escape (x y : float) (n : Z) :
  (forall j, 0 <= j < n -> ~ escapes_at x y j) ->
  mandel_run x y n = (n, Z.to_nat n).
Proof.
  intros Hnone.
  destruct (mandel_run_cases x y n) as [(i & Hi & Hfirst & _)|[_ Hrun]];
    [|exact Hrun].
  destruct Hfirst as (_ & He & _). exfalso. exact (Hnone i Hi He).
Qed.

(** The result is between 0 and the cap, for a cap that is not negative. *)
Lemma mandel_range (x y : float) (n : Z) : 0 <= n -> 0 <= mandel x y n <= n.
Proof.
  intros Hn. unfold mandel.
  destruct (mandel_run_cases x y n) as [(i & Hi & _ & ->)|[_ ->]]; simpl; lia.
Qed.




(** The point 0.5 + 0.5j escapes at index 4, so every cap above 4 reports
    4. *)
Lemma first_escape_half_half : first_escape 0.5 0.5 4.
Proof.
  split; [lia|]. split; [vm_compute; reflexivity|].
  intros j Hj.
  assert (Hcases : j = 0 \/ j = 1 \/ j = 2 \/ j = 3) by lia.
  destruct Hcases as [-> | [-> | [-> | ->]]]; vm_compute; discriminate.
Qed.



Lemma autojit_create_fractal_overflow min_x max_x min_y max_y image iters :
  ~ (- 2 ^ 63 <= iters < 2 ^ 63) ->
  Autojit.create_fractal min_x max_x min_y max_y image iters
  = Raise OverflowError image.
Proof.
  intros Hit. unfold Autojit.create_fractal.
  rewrite decide_False by exact Hit. reflexivity.
Qed.

(** ** The escape function: its contract *)

(** C1. For a positive cap, [mandel x y max_iters] is the smallest index
    [i] in [0, max_iters) at which the squared modulus of [z_{i+1}] reaches or
    exceeds 4 (the test [re*re + im*im >= 4], applied after the update), and
    it is [max_iters] when no index below the cap escapes; one of the two
    always applies. *)
Theorem mandel_smallest_escape_index (x y : float) (max_iters : Z) :
  0 < max_iters ->
  (forall i, 0 <= i < max_iters -> first_escape x y i ->
             mandel x y max_iters = i) /\
  ((forall i, 0 <= i < max_iters -> ~ escapes_at x y i) ->
   mandel x y max_iters = max_iters) /\
  ((exists i, 0 <= i < max_iters /\ first_escape x y i) \/
   (forall i, 0 <= i < max_iters -> ~ escapes_at x y i)).
Proof.
  intros _. unfold mandel. repeat split.
  - intros i Hi Hfirst. rewrite (mandel_escape x y max_iters i); [reflexivity|lia|exact Hfirst].
  - intros Hnone. rewrite mandel_no_escape; [reflexivity|exact Hnone].
  - destruct (mandel_run_cases x y max_iters) as [(i & Hi & Hfirst & _)|[Hnone _]].
    + left. exists i. split; assumption.
    + right. exact Hnone.
Qed.

Lemma mandel_smallest_escape_index_witness :
  0 < 20 /\ first_escape 0.5 0.5 4 /\ mandel 0.5 0.5 20 = 4.
Proof.
  assert (Hfirst : first_escape 0.5 0.5 4).
  { split; [lia|]. split; [vm_compute; reflexivity|].
    intros j Hj.
    assert (Hcases : j = 0 \/ j = 1 \/ j = 2 \/ j = 3) by lia.
    destruct Hcases as [-> | [-> | [-> | ->]]]; vm_compute; discriminate. }
  split; [lia|]. split; [exact Hfirst|].
  apply (proj1 (mandel_smallest_escape_index 0.5 0.5 20 ltac:(lia)) 4);
    [lia|exact Hfirst].
Defined.

Lemma orbit_origin (n : nat) : orbit (Complex 0 0) n = zero_j.
Proof.
  induction n as [|n IH]; [reflexivity|].
  cbn [orbit]. rewrite IH. vm_compute. reflexivity.
Qed.

(** C4. For every positive [N], [mandel(0.0, 0.0, N)] is [N] and
    [mandel(2.0, 0.0, N)] is [0]. *)
Theorem mandel_known_points (N : Z) :
  0 < N -> mandel 0 0 N = N /\ mandel 2 0 N = 0.
Proof.
  intros HN. unfold mandel. split.
  - rewrite mandel_no_escape; [reflexivity|].
    intros j _. unfold escapes_at. rewrite orbit_origin.
    vm_compute. discriminate.
  - rewrite (mandel_escape 2 0 N 0); [reflexivity|lia|].
    split; [lia|]. split; [vm_compute; reflexivity|].
    intros j Hj. lia.
Qed.

Lemma mandel_known_points_witness :
  0 < 7 /\ mandel 0 0 7 = 7 /\ mandel 2 0 7 = 0.
Proof. split; [lia|apply (mandel_known_points 7); lia]. Defined.

(** C6. For caps [N1 <= N2] the reported value never decreases:
    [mandel x y N1 <= mandel x y N2].  If the point escapes at an index
    [i < N1], every cap above [i] reports [i], [N1] and [N2] among them: the
    escape index does not depend on the cap once the cap exceeds it.  If the
    point never escapes, the reported value is the cap. *)
Theorem mandel_cap_monotone (x y : float) (N1 N2 : Z) :
  N1 <= N2 ->
  mandel x y N1 <= mandel x y N2 /\
  (forall i, i < N1 -> first_escape x y i ->
     (forall N, i < N -> mandel x y N = i) /\
     mandel x y N1 = i /\ mandel x y N2 = i) /\
  ((forall i, 0 <= i -> ~ escapes_at x y i) ->
   (forall N, mandel x y N = N) /\ mandel x y N1 = N1 /\ mandel x y N2 = N2).
Proof.
  intros Hle. unfold mandel. split; [|split].
  - destruct (mandel_run_cases x y N1) as [(i & Hi & Hfirst & ->)|[Hnone ->]];
      cbn [fst].
    + rewrite (mandel_escape x y N2 i); [cbn [fst]; lia|lia|exact Hfirst].
    + destruct (mandel_run_cases x y N2) as [(i' & Hi' & Hfirst' & ->)|[_ ->]];
        cbn [fst]; [|exact Hle].
      destruct (decide (N1 <= i')) as [Hge|Hlt]; [exact Hge|].
      destruct Hfirst' as (_ & He' & _).
      exfalso. apply (Hnone i'); [lia|exact He'].
  - intros i Hi Hfirst.
    assert (Hall : forall N, i < N -> fst (mandel_run x y N) = i).
    { intros N HN. rewrite (mandel_escape x y N i HN Hfirst). reflexivity. }
    split; [exact Hall|]. split; apply Hall; lia.
  - intros Hnever.
    assert (Hall : forall N, fst (mandel_run x y N) = N).
    { intros N. rewrite mandel_no_escape; [reflexivity|].
      intros j Hj. apply Hnever. lia. }
    split; [exact Hall|]. split; apply Hall.
Qed.

(** The point 0.5 + 0.5j escapes at index 4: caps 10 and 20 both report 4;
    the origin never escapes: caps 10 and 20 report 10 and 20. *)
Lemma mandel_cap_monotone_witness :
  10 <= 20 /\
  first_escape 0.5 0.5 4 /\
  mandel 0.5 0.5 10 = 4 /\ mandel 0.5 0.5 20 = 4 /\
  mandel 0 0 10 <= mandel 0 0 20.
Proof.
  destruct (mandel_cap_monotone 0.5 0.5 10 20 ltac:(lia)) as (_ & Hescape & _).
  destruct (Hescape 4 ltac:(lia) first_escape_half_half) as (_ & H10 & H20).
  destruct (mandel_cap_monotone 0 0 10 20 ltac:(lia)) as (Hmono & _).
  split; [lia|]. split; [exact first_escape_half_half|].
  split; [exact H10|]. split; [exact H20|exact Hmono].
Defined.

(** C9. For every natural cap the call returns, and it executes the update
    [z = z*z + c] at most [max_iters] times: once per index up to the one it
    returns, or [max_iters] times when the point does not escape. *)
Theorem mandel_update_bound (x y : float) (max_iters : nat) :
  exists (r : Z) (updates : nat),
    mandel_run x y (Z.of_nat max_iters) = (r, updates) /\
    0 <= r <= Z.of_nat max_iters /\
    (updates <= max_iters)%nat /\
    updates = Nat.min (S (Z.to_nat r)) max_iters.
Proof.
  destruct (mandel_run_cases x y (Z.of_nat max_iters))
    as [(i & Hi & _ & Hrun)|[_ Hrun]]; rewrite Hrun.
  - exists i, (S (Z.to_nat i)). repeat split; lia.
  - exists (Z.of_nat max_iters), (Z.to_nat (Z.of_nat max_iters)).
    repeat split; lia.
Qed.

(** C10. With a cap of zero the call performs no iteration and returns 0;
    the function is total, so nothing is raised. *)
Theorem mandel_zero_cap (x y : float) :
  mandel x y 0 = 0 /\ mandel_updates x y 0 = 0%nat.
Proof. split; reflexivity. Qed.

(** ** Arrays: one store *)

Lemma index_in_range (i : Z) (n : nat) :
  0 <= i < Z.of_nat n -> index i n = Some i.
Proof. intros Hi. unfold index. rewrite decide_True by exact Hi. reflexivity. Qed.

(** In range, [a[y, x]] reads row [y], column [x]. *)
Lemma getitem_in_range (a : ndarray) (y x : Z) :
  0 <= y < Z.of_nat (shape0 a) -> 0 <= x < Z.of_nat (shape1 a) ->
  getitem a y x = rows a !! Z.to_nat y ≫= fun row => row !! Z.to_nat x.
Proof.
  intros Hy Hx. unfold getitem.
  rewrite (index_in_range _ _ Hy), (index_in_range _ _ Hx). reflexivity.
Qed.

Lemma wf_zeros (h w : nat) : wf (zeros h w).
Proof.
  split; cbn.
  - apply length_replicate.
  - apply Forall_replicate, length_replicate.
Qed.

Lemma wf_row (a : ndarray) (r : nat) (row : list Z) :
  wf a -> rows a !! r = Some row -> length row = shape1 a.
Proof.
  intros [_ Hrows] Hrow. rewrite Forall_lookup in Hrows. exact (Hrows r row Hrow).
Qed.

Lemma wf_row_exists (a : ndarray) (y : Z) :
  wf a -> 0 <= y < Z.of_nat (shape0 a) ->
  exists row, rows a !! Z.to_nat y = Some row /\ length row = shape1 a.
Proof.
  intros Hwf Hy.
  destruct (lookup_lt_is_Some_2 (rows a) (Z.to_nat y)) as [row Hrow].
  { destruct Hwf as [Hlen _]. rewrite Hlen. lia. }
  exists row. split; [exact Hrow|]. exact (wf_row a _ row Hwf Hrow).
Qed.

Lemma shaped_zeros (h w : nat) : shaped h w (zeros h w).
Proof. split; [apply wf_zeros|split; reflexivity]. Qed.

(** Every element of a well-formed array can be read. *)
Lemma getitem_is_Some (a : ndarray) (y x : Z) :
  wf a -> 0 <= y < Z.of_nat (shape0 a) -> 0 <= x < Z.of_nat (shape1 a) ->
  is_Some (getitem a y x).
Proof.
  intros Hwf Hy Hx. rewrite getitem_in_range by assumption.
  destruct (wf_row_exists a y Hwf Hy) as (row & Hrow & Hlen).
  rewrite Hrow. cbn. apply lookup_lt_is_Some_2. lia.
Qed.

(** Two arrays of one shape with the same elements have the same rows. *)
Lemma rows_ext (h w : nat) (a b : ndarray) :
  shaped h w a -> shaped h w b ->
  (forall y x, 0 <= y < Z.of_nat h -> 0 <= x < Z.of_nat w ->
               getitem a y x = getitem b y x) ->
  rows a = rows b.
Proof.
  intros (Hwfa & Ha0 & Ha1) (Hwfb & Hb0 & Hb1) Heq.
  apply list_eq. intros r.
  destruct (decide (r < h)%nat) as [Hr|Hr].
  - destruct (wf_row_exists a (Z.of_nat r) Hwfa) as (ra & Hra & Hlena); [lia|].
    destruct (wf_row_exists b (Z.of_nat r) Hwfb) as (rb & Hrb & Hlenb); [lia|].
    rewrite Nat2Z.id in Hra, Hrb. rewrite Hra, Hrb. f_equal.
    apply list_eq. intros k.
    destruct (decide (k < w)%nat) as [Hk|Hk].
    + specialize (Heq (Z.of_nat r) (Z.of_nat k) ltac:(lia) ltac:(lia)).
      rewrite !getitem_in_range in Heq by lia.
      rewrite !Nat2Z.id, Hra, Hrb in Heq. exact Heq.
    + rewrite !lookup_ge_None_2 by lia. reflexivity.
  - destruct Hwfa as [Hlena _], Hwfb as [Hlenb _].
    rewrite !lookup_ge_None_2 by lia. reflexivity.
Qed.

(** One in-range store of a value that fits a C [long]: it succeeds, keeps
    the shape, logs its position, sets that element to the value's low eight
    bits and leaves the others. *)
Lemma setitem_in_range (a : ndarray) (y x v : Z) :
  wf a -> 0 <= y < Z.of_nat (shape0 a) -> 0 <= x < Z.of_nat (shape1 a) ->
  - 2 ^ 63 <= v < 2 ^ 63 ->
  exists a',
    setitem a y x v = Ok a' /\
    wf a' /\ shape0 a' = shape0 a /\ shape1 a' = shape1 a /\
    writes a' = writes a ++ [(y, x)] /\
    getitem a' y x = Some (uint8 v) /\
    forall y' x', 0 <= y' < Z.of_nat (shape0 a) -> 0 <= x' < Z.of_nat (shape1 a) ->
                  ~ (x' = x /\ y' = y) -> getitem a' y' x' = getitem a y' x'.
Proof.
  intros Hwf Hy Hx Hv. unfold setitem.
  rewrite (index_in_range _ _ Hy), (index_in_range _ _ Hx).
  rewrite decide_True by exact Hv.
  eexists. split; [reflexivity|].
  destruct (wf_row_exists a y Hwf Hy) as (row & Hrow & Hlen).
  assert (Hwf' : wf (NDArray (shape0 a) (shape1 a)
                       (alter (fun row0 => <[Z.to_nat x := uint8 v]> row0)
                              (Z.to_nat y) (rows a))
                       (writes a ++ [(y, x)]))).
  { destruct Hwf as [Hlen0 Hrows]. split; cbn.
    - rewrite length_alter. exact Hlen0.
    - apply Forall_alter; [exact Hrows|].
      intros r _ Hr. rewrite length_insert. exact Hr. }
  split; [exact Hwf'|]. split; [reflexivity|]. split; [reflexivity|].
  split; [reflexivity|]. split.
  - rewrite getitem_in_range by (cbn; lia). cbn.
    rewrite list_lookup_alter_eq, Hrow. cbn.
    apply list_lookup_insert_eq. lia.
  - intros y' x' Hy' Hx' Hne.
    rewrite !getitem_in_range by (cbn; lia). cbn.
    destruct (decide (y' = y)) as [->|Hyne].
    + rewrite list_lookup_alter_eq, Hrow. cbn.
      apply list_lookup_insert_ne. intros Heq. apply Hne. split; [lia|reflexivity].
    + rewrite list_lookup_alter_ne by lia. reflexivity.
Qed.

(** ** Loops of stores *)

Section Painting.

Variable f : Z -> Z -> Z.

Lemma painted_iff P P' log a a' :
  (forall x y, P x y <-> P' x y) -> painted f P log a a' -> painted f P' log a a'.
Proof.
  intros Hiff (Hwf & H0 & H1 & Hlog & Hpix).
  split; [exact Hwf|]. split; [exact H0|]. split; [exact H1|].
  split; [exact Hlog|].
  intros y x Hy Hx. destruct (Hpix y x Hy Hx) as [Hin Hout]. split.
  - intros HP. apply Hin, Hiff, HP.
  - intros HP. apply Hout. intros HP'. apply HP, Hiff, HP'.
Qed.

Lemma painted_setitem a y x :
  wf a -> 0 <= y < Z.of_nat (shape0 a) -> 0 <= x < Z.of_nat (shape1 a) ->
  - 2 ^ 63 <= f x y < 2 ^ 63 ->
  exists a', setitem a y x (f x y) = Ok a' /\
             painted f (fun x' y' => x' = x /\ y' = y) [(y, x)] a a'.
Proof.
  intros Hwf Hy Hx Hv.
  destruct (setitem_in_range a y x (f x y) Hwf Hy Hx Hv)
    as (a' & Hset & Hwf' & H0 & H1 & Hlog & Hhere & Helse).
  exists a'. split; [exact Hset|].
  split; [exact Hwf'|]. split; [exact H0|]. split; [exact H1|].
  split; [exact Hlog|].
  intros y' x' Hy' Hx'. split.
  - intros [-> ->]. exact Hhere.
  - intros Hne. apply Helse; assumption.
Qed.

(** A loop whose every iteration paints paints the union, and logs the
    iterations' stores in order. *)
Lemma for_in_painted {A : Type} (Q : A -> Z -> Z -> Prop)
    (lg : A -> list (Z * Z)) (body : A -> ndarray -> result ndarray)
    (h w : nat) (l : list A) :
  (forall i x y, Q i x y \/ ~ Q i x y) ->
  (forall i a, i ∈ l -> shaped h w a ->
               exists a', body i a = Ok a' /\ painted f (Q i) (lg i) a a') ->
  forall a, shaped h w a ->
    exists a', for_in l body a = Ok a' /\
               painted f (fun x y => exists i, i ∈ l /\ Q i x y) (l ≫= lg) a a'.
Proof.
  intros Hdec. induction l as [|i l IH]; intros Hbody a Ha.
  - exists a. split; [reflexivity|].
    destruct Ha as (Hwf & _ & _).
    split; [exact Hwf|]. split; [reflexivity|]. split; [reflexivity|].
    split; [cbn; rewrite app_nil_r; reflexivity|].
    intros y x _ _. split; [|reflexivity].
    intros (i & Hi & _). apply elem_of_nil in Hi. contradiction.
  - destruct (Hbody i a (list_elem_of_here i l) Ha)
      as (a1 & Hrun1 & Hwf1 & H10 & H11 & Hlog1 & Hpix1).
    assert (Ha1 : shaped h w a1).
    { destruct Ha as (_ & Ha0 & Ha1). split; [exact Hwf1|]. split; congruence. }
    destruct (IH (fun j b Hj Hb => Hbody j b (list_elem_of_further j i l Hj) Hb) a1 Ha1)
      as (a2 & Hrun2 & Hwf2 & H20 & H21 & Hlog2 & Hpix2).
    exists a2. split.
    { cbn [for_in]. rewrite Hrun1. exact Hrun2. }
    split; [exact Hwf2|]. split; [congruence|]. split; [congruence|].
    split; [rewrite Hlog2, Hlog1, <- app_assoc; reflexivity|].
    intros y x Hy Hx.
    destruct (Hpix1 y x Hy Hx) as [Hin1 Hout1].
    destruct (Hpix2 y x ltac:(lia) ltac:(lia)) as [Hin2 Hout2].
    assert (Hrest : (exists j, j ∈ l /\ Q j x y) \/ ~ (exists j, j ∈ l /\ Q j x y)).
    { clear -Hdec. induction l as [|j l IHl].
      - right. intros (k & Hk & _). apply elem_of_nil in Hk. contradiction.
      - destruct (Hdec j x y) as [Hq|Hq].
        + left. exists j. split; [apply list_elem_of_here|exact Hq].
        + destruct IHl as [(k & Hk & Hqk)|Hno].
          * left. exists k. split; [apply list_elem_of_further, Hk|exact Hqk].
          * right. intros (k & Hk & Hqk). apply elem_of_cons in Hk.
            destruct Hk as [->|Hk]; [exact (Hq Hqk)|].
            apply Hno. exists k. split; assumption. }
    split.
    + intros (j & Hj & Hq).
      destruct Hrest as [Hlater|Hnot]; [exact (Hin2 Hlater)|].
      rewrite (Hout2 Hnot). apply Hin1.
      apply elem_of_cons in Hj. destruct Hj as [->|Hj]; [exact Hq|].
      exfalso. apply Hnot. exists j. split; assumption.
    + intros Hnone. rewrite Hout2, Hout1; [reflexivity| |].
      * intros Hq. apply Hnone. exists i. split; [apply list_elem_of_here|exact Hq].
      * intros (j & Hj & Hq). apply Hnone. exists j.
        split; [apply list_elem_of_further, Hj|exact Hq].
Qed.

(** The two nested loops of the renderer and of the kernel. *)
Lemma nested_loops_painted (h w : nat) (xs ys : list Z) (a : ndarray) :
  shaped h w a ->
  (forall x, x ∈ xs -> 0 <= x < Z.of_nat w) ->
  (forall y, y ∈ ys -> 0 <= y < Z.of_nat h) ->
  (forall x y, x ∈ xs -> y ∈ ys -> - 2 ^ 63 <= f x y < 2 ^ 63) ->
  exists a',
    for_in xs (fun x image =>
      for_in ys (fun y image => setitem image y x (f x y)) image) a = Ok a' /\
    painted f (fun x y => x ∈ xs /\ y ∈ ys) (stores xs ys) a a'.
Proof.
  intros Ha Hxs Hys Hval.
  destruct (for_in_painted
              (fun x0 x y => x = x0 /\ y ∈ ys)
              (fun x0 => y ← ys; [(y, x0)])
              (fun x image =>
                 for_in ys (fun y image => setitem image y x (f x y)) image)
              h w xs) with (a := a) as (a' & Hrun & Hpaint).
  - intros x0 x y. destruct (decide (x = x0 /\ y ∈ ys)); [left|right]; assumption.
  - intros x0 b Hx0 Hb.
    destruct (for_in_painted
                (fun y0 x y => x = x0 /\ y = y0)
                (fun y0 => [(y0, x0)])
                (fun y image => setitem image y x0 (f x0 y))
                h w ys) with (a := b) as (b' & Hrunb & Hpaintb).
    + intros y0 x y. destruct (decide (x = x0 /\ y = y0)); [left|right]; assumption.
    + intros y0 d Hy0 (Hwfd & Hd0 & Hd1).
      apply painted_setitem; [exact Hwfd| | |].
      * rewrite Hd0. apply Hys, Hy0.
      * rewrite Hd1. apply Hxs, Hx0.
      * apply Hval; assumption.
    + exact Hb.
    + exists b'. split; [exact Hrunb|].
      revert Hpaintb. apply painted_iff. intros x y. split.
      * intros (y0 & Hy0 & -> & ->). split; [reflexivity|exact Hy0].
      * intros [-> Hy]. exists y. repeat split. exact Hy.
  - exact Ha.
  - exists a'. split; [exact Hrun|].
    revert Hpaint. apply painted_iff. intros x y. split.
    + intros (x0 & Hx0 & -> & Hy). split; assumption.
    + intros [Hx Hy]. exists x. repeat split; assumption.
Qed.

End Painting.

(** ** Strided ranges *)

Lemma elem_of_range (n k : Z) : k ∈ range n <-> 0 <= k < n.
Proof. unfold range. rewrite elem_of_seqZ. lia. Qed.

Lemma elem_of_range3 (start stop step x : Z) :
  0 < step ->
  x ∈ range3 start stop step <->
  start <= x < stop /\ (x - start) `mod` step = 0.
Proof.
  intros Hstep. unfold range3. rewrite decide_True by exact Hstep.
  rewrite list_elem_of_fmap. split.
  - intros (k & -> & Hk). apply elem_of_seqZ in Hk.
    assert (Hlt : k * step < stop - start).
    { assert (Hdiv : k + 1 <= (stop - start + step - 1) `div` step) by lia.
      pose proof (Z.mul_div_le (stop - start + step - 1) step Hstep) as Hmul.
      nia. }
    split; [nia|].
    replace (start + k * step - start) with (k * step) by lia.
    apply Z_mod_mult.
  - intros [Hx Hmod].
    exists ((x - start) `div` step).
    pose proof (Z_div_mod_eq_full (x - start) step) as Hdm.
    rewrite Hmod in Hdm. split; [lia|].
    apply elem_of_seqZ. split.
    + pose proof (Z.div_pos (x - start) step ltac:(lia) Hstep). lia.
    + cbn. apply Z.div_lt_upper_bound; [exact Hstep|].
      pose proof (Z.mul_div_le (stop - start + step - 1) step Hstep) as Hle.
      pose proof (Z.mul_succ_div_gt (stop - start + step - 1) step Hstep) as Hgt.
      assert (Hq : (x - start) `div` step * step = x - start) by lia.
      nia.
Qed.

Lemma NoDup_range3 (start stop step : Z) : NoDup (range3 start stop step).
Proof.
  unfold range3. destruct (decide (0 < step)) as [Hstep|_]; [|apply NoDup_nil_2].
  apply NoDup_fmap_2_strong; [|apply NoDup_seqZ].
  intros k1 k2 _ _ Heq. nia.
Qed.

(** Along one axis, exactly one pair (block, thread) owns the residue of
    [x] modulo the stride. *)
Lemma axis_owner (gd bd x : Z) :
  0 < gd -> 0 < bd -> 0 <= x ->
  exists b t,
    (0 <= b < gd /\ 0 <= t < bd /\
     bd * b + t <= x /\ (x - (bd * b + t)) `mod` (gd * bd) = 0) /\
    forall b' t',
      0 <= b' < gd -> 0 <= t' < bd ->
      bd * b' + t' <= x -> (x - (bd * b' + t')) `mod` (gd * bd) = 0 ->
      b' = b /\ t' = t.
Proof.
  intros Hgd Hbd Hx.
  assert (HG : 0 < gd * bd) by nia.
  pose proof (Z.mod_pos_bound x (gd * bd) HG) as Hs.
  pose proof (Z_div_mod_eq_full x (gd * bd)) as Hxs.
  set (s := x `mod` (gd * bd)) in *.
  pose proof (Z.mod_pos_bound s bd Hbd) as Ht.
  pose proof (Z_div_mod_eq_full s bd) as Hsb.
  exists (s `div` bd), (s `mod` bd). split.
  - split.
    { split; [apply Z.div_pos; lia|].
      apply Z.div_lt_upper_bound; [exact Hbd|nia]. }
    split; [exact Ht|].
    rewrite <- Hsb.
    pose proof (Z.div_pos x (gd * bd) Hx HG) as Hq.
    split; [nia|].
    replace (x - s) with (x `div` (gd * bd) * (gd * bd)) by lia.
    apply Z_mod_mult.
  - intros b' t' Hb' Ht' Hle Hmod.
    assert (Hs' : bd * b' + t' = s).
    { assert (Hrange : 0 <= bd * b' + t' < gd * bd) by nia.
      pose proof (Z_div_mod_eq_full (x - (bd * b' + t')) (gd * bd)) as Hd.
      rewrite Hmod in Hd.
      unfold s.
      apply (Z.mod_unique_pos x (gd * bd) ((x - (bd * b' + t')) `div` (gd * bd)));
        [exact Hrange|lia]. }
    split.
    + apply (Z.div_unique_pos s bd b' t'); [exact Ht'|lia].
    + apply (Z.mod_unique_pos s bd b' t'); [exact Ht'|lia].
Qed.

(** ** The threads of a launch *)

Ltac unfold_bind_membership :=
  repeat match goal with
    | H : _ ∈ _ ≫= _ |- _ =>
        apply list_elem_of_bind in H; destruct H as (? & H & ?)
    | H : _ ∈ [_] |- _ => apply list_elem_of_singleton in H
    | H : _ ∈ seqZ _ _ |- _ => apply elem_of_seqZ in H
    end.

Lemma elem_of_threads (cfg : config) (t : thread) :
  t ∈ threads cfg <-> valid_thread cfg t.
Proof.
  unfold threads, valid_thread. split.
  - intros Ht. unfold_bind_membership. subst t. cbn. lia.
  - destruct t as [[bx b_y] [tx t_y]]. cbn. intros (Hbx & Hby & Htx & Hty).
    apply list_elem_of_bind. exists bx. split; [|apply elem_of_seqZ; lia].
    apply list_elem_of_bind. exists b_y. split; [|apply elem_of_seqZ; lia].
    apply list_elem_of_bind. exists tx. split; [|apply elem_of_seqZ; lia].
    apply list_elem_of_bind. exists t_y. split; [|apply elem_of_seqZ; lia].
    apply list_elem_of_singleton. reflexivity.
Qed.

Lemma NoDup_threads (cfg : config) : NoDup (threads cfg).
Proof.
  unfold threads.
  apply NoDup_bind; [| |apply NoDup_seqZ].
  { intros b1 b2 t _ _ H1 H2. unfold_bind_membership. congruence. }
  intros bx _. apply NoDup_bind; [| |apply NoDup_seqZ].
  { intros b1 b2 t _ _ H1 H2. unfold_bind_membership. congruence. }
  intros b_y _. apply NoDup_bind; [| |apply NoDup_seqZ].
  { intros t1 t2 t _ _ H1 H2. unfold_bind_membership. congruence. }
  intros tx _. apply NoDup_bind; [| |apply NoDup_seqZ].
  { intros t1 t2 t _ _ H1 H2. unfold_bind_membership. congruence. }
  intros t_y _. apply NoDup_singleton.
Qed.

(** A pixel column belongs to the loop of exactly the threads whose start
    index is its residue modulo the stride. *)
Lemma elem_of_thread_columns (cfg : config) (t : thread) (width x : Z) :
  positive_config cfg ->
  x ∈ thread_columns cfg t width <->
  fst (grid2 cfg t) <= x < width /\
  (x - fst (grid2 cfg t)) `mod` (dim_x (gridDim cfg) * dim_x (blockDim cfg)) = 0.
Proof.
  intros (Hgx & _ & Hbx & _). unfold thread_columns.
  apply elem_of_range3. nia.
Qed.

Lemma elem_of_thread_lines (cfg : config) (t : thread) (height y : Z) :
  positive_config cfg ->
  y ∈ thread_lines cfg t height <->
  snd (grid2 cfg t) <= y < height /\
  (y - snd (grid2 cfg t)) `mod` (dim_y (gridDim cfg) * dim_y (blockDim cfg)) = 0.
Proof.
  intros (_ & Hgy & _ & Hby). unfold thread_lines.
  apply elem_of_range3. nia.
Qed.

(** Every pixel has exactly one owner among the threads of the launch. *)
Lemma pixel_owner (cfg : config) (width height x y : Z) :
  positive_config cfg -> 0 <= x < width -> 0 <= y < height ->
  exists t,
    (t ∈ threads cfg /\
     x ∈ thread_columns cfg t width /\ y ∈ thread_lines cfg t height) /\
    forall t', t' ∈ threads cfg ->
               x ∈ thread_columns cfg t' width ->
               y ∈ thread_lines cfg t' height -> t' = t.
Proof.
  intros Hpos Hx Hy.
  pose proof Hpos as (Hgx & Hgy & Hbx & Hby).
  destruct (axis_owner (dim_x (gridDim cfg)) (dim_x (blockDim cfg)) x)
    as (bx & tx & (Hbx1 & Htx1 & Hlex & Hmodx) & Hunx); [lia..|].
  destruct (axis_owner (dim_y (gridDim cfg)) (dim_y (blockDim cfg)) y)
    as (b_y & t_y & (Hby1 & Hty1 & Hley & Hmody) & Huny); [lia..|].
  exists (Thread (Dim bx b_y) (Dim tx t_y)). split.
  - split; [apply elem_of_threads; unfold valid_thread; cbn; lia|].
    rewrite elem_of_thread_columns, elem_of_thread_lines by exact Hpos.
    cbn. repeat split; try lia; assumption.
  - intros [[bx' b_y'] [tx' t_y']] Ht' Hcol Hline.
    apply elem_of_threads in Ht'. destruct Ht' as (Hb1 & Hb2 & Ht1 & Ht2).
    apply elem_of_thread_columns in Hcol; [|exact Hpos].
    apply elem_of_thread_lines in Hline; [|exact Hpos].
    cbn in *.
    destruct (Hunx bx' tx') as [-> ->]; [lia..|tauto|].
    destruct (Huny b_y' t_y') as [-> ->]; [lia..|tauto|].
    reflexivity.
Qed.

(** The columns and lines of a valid thread are inside the image. *)
Lemma thread_columns_in_range cfg t width x :
  positive_config cfg -> valid_thread cfg t ->
  x ∈ thread_columns cfg t width -> 0 <= x < width.
Proof.
  intros Hpos (Hb & _ & Ht & _) Hx.
  apply elem_of_thread_columns in Hx; [|exact Hpos]. cbn in Hx. nia.
Qed.

Lemma thread_lines_in_range cfg t height y :
  positive_config cfg -> valid_thread cfg t ->
  y ∈ thread_lines cfg t height -> 0 <= y < height.
Proof.
  intros Hpos (_ & Hb & _ & Ht) Hy.
  apply elem_of_thread_lines in Hy; [|exact Hpos]. cbn in Hy. nia.
Qed.

(** ** What the three renderers leave in the array *)


Lemma elem_of_stores (xs ys : list Z) (x y : Z) :
  (y, x) ∈ stores xs ys <-> x ∈ xs /\ y ∈ ys.
Proof.
  unfold stores. split.
  - intros H. unfold_bind_membership. split; congruence.
  - intros [Hx Hy]. apply list_elem_of_bind. exists x. split; [|exact Hx].
    apply list_elem_of_bind. exists y. split; [|exact Hy].
    apply list_elem_of_singleton. reflexivity.
Qed.

Lemma NoDup_stores (xs ys : list Z) :
  NoDup xs -> NoDup ys -> NoDup (stores xs ys).
Proof.
  intros Hxs Hys. unfold stores.
  apply NoDup_bind; [| |exact Hxs].
  { intros x1 x2 p _ _ H1 H2. unfold_bind_membership. congruence. }
  intros x _. apply NoDup_bind; [| |exact Hys].
  { intros y1 y2 p _ _ H1 H2. unfold_bind_membership. congruence. }
  intros y _. apply NoDup_singleton.
Qed.

Lemma times_written_notin (p : Z * Z) (l : list (Z * Z)) :
  p ∉ l -> times_written p l = 0%nat.
Proof.
  unfold times_written. induction l as [|q l IH]; intros Hp; [reflexivity|].
  apply not_elem_of_cons in Hp. destruct Hp as [Hne Hp].
  rewrite filter_cons_False by congruence. exact (IH Hp).
Qed.

Lemma times_written_NoDup (p : Z * Z) (l : list (Z * Z)) :
  NoDup l -> p ∈ l -> times_written p l = 1%nat.
Proof.
  unfold times_written. induction 1 as [|q l Hq Hnd IH]; intros Hp.
  - apply elem_of_nil in Hp. contradiction.
  - apply elem_of_cons in Hp. destruct Hp as [->|Hp].
    + rewrite filter_cons_True by reflexivity. cbn. f_equal.
      apply (times_written_notin q l Hq).
    + rewrite filter_cons_False by (intros ->; contradiction).
      exact (IH Hp).
Qed.

(** The value [mandel] returns fits a C [long] when the cap does. *)
Lemma mandel_fits (x y : float) (n : Z) :
  - 2 ^ 63 <= n < 2 ^ 63 -> - 2 ^ 63 <= mandel x y n < 2 ^ 63.
Proof.
  intros Hn. unfold mandel.
  destruct (mandel_run_cases x y n) as [(i & Hi & _ & ->)|[_ ->]]; cbn [fst]; lia.
Qed.

(** The value the device function returns is a [uint32]. *)
Lemma mandel_gpu_fits (x y : float) (n : Z) :
  - 2 ^ 63 <= mandel_gpu x y n < 2 ^ 63.
Proof.
  unfold mandel_gpu, uint32.
  pose proof (Z.mod_pos_bound (Autojit.mandel x y (n `mod` 2 ^ 32)) (2 ^ 32)
                ltac:(lia)).
  lia.
Qed.

Section Rendering.

Variables min_x max_x min_y max_y : float.
Variables h w : nat.
Variable iters : Z.

(** With both extents non-zero and every pixel's count inside the range of
    a C [long], the CPU renderer completes, stores every pixel's count, and
    stores column by column. *)
Lemma create_fractal_painted (image : ndarray) :
  shaped h w image -> (0 < h)%nat -> (0 < w)%nat ->
  (forall x y, 0 <= x < Z.of_nat w -> 0 <= y < Z.of_nat h ->
     - 2 ^ 63 <= pixel_count min_x max_x min_y max_y h w iters x y < 2 ^ 63) ->
  exists a',
    create_fractal min_x max_x min_y max_y image iters = Ok a' /\
    painted (pixel_count min_x max_x min_y max_y h w iters)
      (fun x y => 0 <= x < Z.of_nat w /\ 0 <= y < Z.of_nat h)
      (stores (range (Z.of_nat w)) (range (Z.of_nat h))) image a'.
Proof.
  intros Ha Hh Hw Hval. pose proof Ha as (_ & Ha0 & Ha1).
  destruct (nested_loops_painted
              (pixel_count min_x max_x min_y max_y h w iters) h w
              (range (Z.of_nat w)) (range (Z.of_nat h))
              image Ha) as (a' & Hrun & Hpaint).
  { intros x Hx. apply elem_of_range in Hx. exact Hx. }
  { intros y Hy. apply elem_of_range in Hy. exact Hy. }
  { intros x y Hx Hy. apply elem_of_range in Hx, Hy. apply Hval; assumption. }
  exists a'. split.
  - unfold create_fractal, truediv. rewrite Ha0, Ha1.
    rewrite !decide_False by lia. exact Hrun.
  - revert Hpaint. apply painted_iff. intros x y.
    rewrite !elem_of_range. reflexivity.
Qed.

(** One thread of the kernel completes and stores the counts of the pixels
    of its columns and lines. *)
Lemma mandel_kernel_painted (cfg : config) (t : thread) (image : ndarray) :
  positive_config cfg -> valid_thread cfg t -> shaped h w image ->
  exists a',
    mandel_kernel cfg t min_x max_x min_y max_y image iters = Ok a' /\
    painted (device_pixel_count min_x max_x min_y max_y h w iters)
      (fun x y => x ∈ thread_columns cfg t (Z.of_nat w) /\
                  y ∈ thread_lines cfg t (Z.of_nat h))
      (stores (thread_columns cfg t (Z.of_nat w)) (thread_lines cfg t (Z.of_nat h)))
      image a'.
Proof.
  intros Hpos Ht Ha. pose proof Ha as (_ & Ha0 & Ha1).
  destruct (nested_loops_painted
              (device_pixel_count min_x max_x min_y max_y h w iters) h w
              (thread_columns cfg t (Z.of_nat w)) (thread_lines cfg t (Z.of_nat h))
              image Ha) as (a' & Hrun & Hpaint).
  { intros x. apply thread_columns_in_range; assumption. }
  { intros y. apply thread_lines_in_range; assumption. }
  { intros x y _ _. apply mandel_gpu_fits. }
  exists a'. split; [|exact Hpaint].
  unfold mandel_kernel. rewrite Ha0, Ha1. exact Hrun.
Qed.

(** A launch completes; it stores, thread after thread of the schedule, the
    counts of the pixels its threads own. *)
Lemma launch_painted (cfg : config) (schedule : list thread) (image : ndarray) :
  positive_config cfg -> (forall t, t ∈ schedule -> valid_thread cfg t) ->
  shaped h w image ->
  exists a',
    launch cfg schedule min_x max_x min_y max_y image iters = Ok a' /\
    painted (device_pixel_count min_x max_x min_y max_y h w iters)
      (fun x y => exists t, t ∈ schedule /\
                            x ∈ thread_columns cfg t (Z.of_nat w) /\
                            y ∈ thread_lines cfg t (Z.of_nat h))
      (schedule ≫= fun t =>
         stores (thread_columns cfg t (Z.of_nat w)) (thread_lines cfg t (Z.of_nat h)))
      image a'.
Proof.
  intros Hpos Hvalid Ha. unfold launch.
  apply (for_in_painted (device_pixel_count min_x max_x min_y max_y h w iters)
           (fun t x y => x ∈ thread_columns cfg t (Z.of_nat w) /\
                         y ∈ thread_lines cfg t (Z.of_nat h))
           (fun t => stores (thread_columns cfg t (Z.of_nat w))
                            (thread_lines cfg t (Z.of_nat h)))
           (fun t d_image =>
              mandel_kernel cfg t min_x max_x min_y max_y d_image iters)
           h w schedule).
  - intros t x y.
    destruct (decide (x ∈ thread_columns cfg t (Z.of_nat w) /\
                      y ∈ thread_lines cfg t (Z.of_nat h))); [left|right]; assumption.
  - intros t a Ht Hsa. apply mandel_kernel_painted; auto.
  - exact Ha.
Qed.


End Rendering.

(** ** The grid-stride loops *)

Section GridStride.

Variables min_x max_x min_y max_y : float.
Variables h w : nat.
Variable iters : Z.
Variable cfg : config.
Hypothesis Hpos : positive_config cfg.

Lemma thread_stores_owner (t : thread) (x y : Z) :
  t ∈ threads cfg -> (y, x) ∈ thread_stores cfg h w t ->
  0 <= x < Z.of_nat w /\ 0 <= y < Z.of_nat h.
Proof.
  intros Ht Hp. apply elem_of_threads in Ht.
  apply elem_of_stores in Hp. destruct Hp as [Hx Hy]. split.
  - exact (thread_columns_in_range cfg t _ x Hpos Ht Hx).
  - exact (thread_lines_in_range cfg t _ y Hpos Ht Hy).
Qed.

Lemma thread_stores_disjoint (t1 t2 : thread) (p : Z * Z) :
  t1 ∈ threads cfg -> t2 ∈ threads cfg ->
  p ∈ thread_stores cfg h w t1 -> p ∈ thread_stores cfg h w t2 -> t1 = t2.
Proof.
  destruct p as [y x]. intros Ht1 Ht2 Hp1 Hp2.
  destruct (thread_stores_owner t1 x y Ht1 Hp1) as [Hx Hy].
  destruct (pixel_owner cfg (Z.of_nat w) (Z.of_nat h) x y Hpos Hx Hy)
    as (t & _ & Hunique).
  apply elem_of_stores in Hp1, Hp2.
  rewrite (Hunique t1), (Hunique t2); tauto.
Qed.

Lemma NoDup_thread_stores (t : thread) : NoDup (thread_stores cfg h w t).
Proof. apply NoDup_stores; apply NoDup_range3. Qed.

(** The stores of a whole launch, whatever the order of its threads: no
    position twice, and every pixel among them. *)
Lemma NoDup_launch_stores (schedule : list thread) :
  schedule ≡ₚ threads cfg -> NoDup (schedule ≫= thread_stores cfg h w).
Proof.
  intros Hperm. apply NoDup_bind.
  - intros t1 t2 p Ht1 Ht2. rewrite Hperm in Ht1, Ht2.
    apply thread_stores_disjoint; assumption.
  - intros t _. apply NoDup_thread_stores.
  - rewrite Hperm. apply NoDup_threads.
Qed.

Lemma launch_stores_cover (schedule : list thread) (x y : Z) :
  schedule ≡ₚ threads cfg -> 0 <= x < Z.of_nat w -> 0 <= y < Z.of_nat h ->
  (y, x) ∈ schedule ≫= thread_stores cfg h w.
Proof.
  intros Hperm Hx Hy.
  destruct (pixel_owner cfg (Z.of_nat w) (Z.of_nat h) x y Hpos Hx Hy)
    as (t & (Ht & Hcol & Hline) & _).
  apply list_elem_of_bind. exists t. split.
  - apply elem_of_stores. split; assumption.
  - rewrite Hperm. exact Ht.
Qed.

(** What one thread of the launch stores into a fresh array. *)
Lemma written_mandel_kernel (t : thread) (image : ndarray) :
  t ∈ threads cfg -> shaped h w image -> writes image = [] ->
  written (mandel_kernel cfg t min_x max_x min_y max_y image iters)
  = thread_stores cfg h w t.
Proof.
  intros Ht Ha Hfresh. apply elem_of_threads in Ht.
  destruct (mandel_kernel_painted min_x max_x min_y max_y h w iters cfg t image
              Hpos Ht Ha) as (a' & -> & _ & _ & _ & Hlog & _).
  unfold written. cbn. rewrite Hlog, Hfresh. reflexivity.
Qed.

End GridStride.

(** C3. For every positive grid and block dimensions, and whatever the
    order in which the device runs the threads, the launch completes and its
    grid-stride loops store every pixel [(x, y)] of the image exactly once:
    one thread stores it, once, and no other thread does; nothing outside
    the image is stored. *)
Theorem grid_stride_visits_each_pixel_once
    (min_x max_x min_y max_y : float) (h w : nat) (iters : Z) (cfg : config)
    (schedule : list thread) (image : ndarray) :
  positive_config cfg -> schedule ≡ₚ threads cfg ->
  shaped h w image -> writes image = [] ->
  exists d_image,
    launch cfg schedule min_x max_x min_y max_y image iters = Ok d_image /\
    (forall y x, (y, x) ∈ writes d_image ->
                 0 <= x < Z.of_nat w /\ 0 <= y < Z.of_nat h) /\
    forall x y, 0 <= x < Z.of_nat w -> 0 <= y < Z.of_nat h ->
      times_written (y, x) (writes d_image) = 1%nat /\
      exists t, t ∈ threads cfg /\
        times_written (y, x)
          (written (mandel_kernel cfg t min_x max_x min_y max_y image iters))
        = 1%nat /\
        forall t', t' ∈ threads cfg -> t' <> t ->
          times_written (y, x)
            (written (mandel_kernel cfg t' min_x max_x min_y max_y image iters))
          = 0%nat.
Proof.
  intros Hpos Hperm Ha Hfresh.
  destruct (launch_painted min_x max_x min_y max_y h w iters cfg schedule image Hpos)
    as (d_image & Hrun & _ & _ & _ & Hlog & _); [|exact Ha|].
  { intros t Ht. rewrite Hperm in Ht. apply elem_of_threads, Ht. }
  rewrite Hfresh in Hlog. cbn in Hlog.
  exists d_image. split; [exact Hrun|]. split.
  - intros y x Hp. rewrite Hlog in Hp.
    apply list_elem_of_bind in Hp. destruct Hp as (t & Hp & Ht).
    rewrite Hperm in Ht.
    exact (thread_stores_owner h w cfg Hpos t x y Ht Hp).
  - intros x y Hx Hy. split.
    + rewrite Hlog. apply times_written_NoDup.
      * apply NoDup_launch_stores; assumption.
      * apply launch_stores_cover; assumption.
    + destruct (pixel_owner cfg (Z.of_nat w) (Z.of_nat h) x y Hpos Hx Hy)
        as (t & (Ht & Hcol & Hline) & Hunique).
      exists t. split; [exact Ht|]. split.
      * rewrite (written_mandel_kernel min_x max_x min_y max_y h w iters cfg Hpos)
          by assumption.
        apply times_written_NoDup; [apply NoDup_thread_stores|].
        apply elem_of_stores. split; assumption.
      * intros t' Ht' Hne.
        rewrite (written_mandel_kernel min_x max_x min_y max_y h w iters cfg Hpos)
          by assumption.
        apply times_written_notin. intros Hp. apply elem_of_stores in Hp.
        apply Hne, Hunique; tauto.
Qed.

(** The notebook's launch geometry, [griddim = (32, 16)] and
    [blockdim = (32, 8)], on its 1536 by 1024 image: 131072 threads for
    1572864 pixels. *)
Lemma grid_stride_visits_each_pixel_once_witness :
  let cfg := Config (Dim 32 16) (Dim 32 8) in
  exists d_image,
    launch cfg (threads cfg) (-2) 1 (-1) 1 (zeros 1024 1536) 20 = Ok d_image /\
    forall x y, 0 <= x < 1536 -> 0 <= y < 1024 ->
                times_written (y, x) (writes d_image) = 1%nat.
Proof.
  intros cfg.
  destruct (grid_stride_visits_each_pixel_once (-2) 1 (-1) 1 1024 1536 20 cfg
              (threads cfg) (zeros 1024 1536))
    as (d_image & Hrun & _ & Honce).
  - unfold positive_config. cbn. lia.
  - reflexivity.
  - apply shaped_zeros.
  - reflexivity.
  - exists d_image. split; [exact Hrun|].
    intros x y Hx Hy. apply Honce; lia.
Defined.

(** ** Cross-backend equivalence *)

(** On an image with an empty axis the CPU renderer raises at the division
    by the extent and leaves the image as it was. *)
Lemma create_fractal_stays_on_empty_axis (min_x max_x min_y max_y : float)
    (iters : Z) (image : ndarray) :
  ((shape0 image = 0 \/ shape1 image = 0)%nat ->
   create_fractal min_x max_x min_y max_y image iters
   = Raise ZeroDivisionError image) /\
  ((shape0 image = 0 \/ shape1 image = 0)%nat ->
   left_behind (create_fractal min_x max_x min_y max_y image iters) = image).
Proof.
  assert (Hraise : (shape0 image = 0 \/ shape1 image = 0)%nat ->
                   create_fractal min_x max_x min_y max_y image iters
                   = Raise ZeroDivisionError image).
  { intros Hzero. unfold create_fractal, truediv.
    destruct (decide (Z.of_nat (shape1 image) = 0)) as [_|Hw]; [reflexivity|].
    rewrite decide_True by lia. reflexivity. }
  split; [exact Hraise|].
  intros Hzero. rewrite (Hraise Hzero). reflexivity.
Qed.

(** What the CPU renderer leaves in every pixel, when every count fits a C
    [long]. *)
Lemma create_fractal_pixels_of_counts (min_x max_x min_y max_y : float)
    (h w : nat) (iters : Z) (image : ndarray) :
  shaped h w image -> (0 < h)%nat -> (0 < w)%nat ->
  (forall x y, 0 <= x < Z.of_nat w -> 0 <= y < Z.of_nat h ->
     - 2 ^ 63 <= pixel_count min_x max_x min_y max_y h w iters x y < 2 ^ 63) ->
  exists a',
    create_fractal min_x max_x min_y max_y image iters = Ok a' /\
    shaped h w a' /\
    writes a' = writes image ++ stores (range (Z.of_nat w)) (range (Z.of_nat h)) /\
    forall x y, 0 <= x < Z.of_nat w -> 0 <= y < Z.of_nat h ->
      getitem a' y x
      = Some (uint8 (pixel_count min_x max_x min_y max_y h w iters x y)).
Proof.
  intros Ha Hh Hw Hval. pose proof Ha as (_ & Ha0 & Ha1).
  destruct (create_fractal_painted min_x max_x min_y max_y h w iters image
              Ha Hh Hw Hval)
    as (a' & Hrun & Hwf & H0 & H1 & Hlog & Hpix).
  exists a'. split; [exact Hrun|]. split; [|split; [exact Hlog|]].
  - split; [exact Hwf|]. split; congruence.
  - intros x y Hx Hy.
    destruct (Hpix y x) as [Hin _]; [lia..|]. apply Hin. split; assumption.
Qed.

(** What the CPU renderer leaves in every pixel, for a cap that fits a C
    [long]. *)
Lemma create_fractal_pixels (min_x max_x min_y max_y : float) (h w : nat)
    (iters : Z) (image : ndarray) :
  shaped h w image -> (0 < h)%nat -> (0 < w)%nat ->
  - 2 ^ 63 <= iters < 2 ^ 63 ->
  exists a',
    create_fractal min_x max_x min_y max_y image iters = Ok a' /\
    shaped h w a' /\
    forall x y, 0 <= x < Z.of_nat w -> 0 <= y < Z.of_nat h ->
      getitem a' y x
      = Some (uint8 (pixel_count min_x max_x min_y max_y h w iters x y)).
Proof.
  intros Ha Hh Hw Hit.
  destruct (create_fractal_pixels_of_counts min_x max_x min_y max_y h w iters
              image Ha Hh Hw) as (a' & Hrun & Hsa & _ & Hpix).
  { intros x y _ _. apply mandel_fits, Hit. }
  exists a'. split; [exact Hrun|]. split; [exact Hsa|exact Hpix].
Qed.






(** ** The coordinate mapper *)

(** A finite float is a zero or a finite non-zero number. *)
Lemma is_finite_cases (a : float) :
  is_finite a = true ->
  (exists s, Prim2SF a = S754_zero s) \/
  (exists s m e, Prim2SF a = S754_finite s m e).
Proof.
  unfold is_finite, is_nan, is_infinity.
  rewrite !FloatAxioms.eqb_spec, abs_spec.
  replace (Prim2SF infinity) with (S754_infinity false) by (vm_compute; reflexivity).
  destruct (Prim2SF a) as [s|s| |s m e]; cbn.
  - intros _. left. exists s. reflexivity.
  - destruct s; discriminate.
  - discriminate.
  - intros _. right. exists s, m, e. reflexivity.
Qed.

Lemma SFeqb_refl_finite s m e :
  SFeqb (S754_finite s m e) (S754_finite s m e) = true.
Proof.
  unfold SFeqb, SFcompare. rewrite Z.compare_refl.
  change (PosDef.Pos.compare_cont Eq m m) with (Pos.compare m m).
  rewrite Pos.compare_refl. destruct s; reflexivity.
Qed.

(** [lo + 0 * p] is numerically [lo] when both are finite, and is [lo]
    itself unless [lo] is the negative zero. *)
Lemma add_zero_product (lo p : float) :
  is_finite lo = true -> is_finite p = true ->
  (lo + 0 * p =? lo)%float = true /\
  (lo <> neg_zero -> (lo + 0 * p)%float = lo).
Proof.
  intros Hlo Hp.
  assert (Hprod : exists s, Prim2SF (0 * p)%float = S754_zero s).
  { rewrite FloatAxioms.mul_spec.
    replace (Prim2SF 0) with (S754_zero false) by (vm_compute; reflexivity).
    destruct (is_finite_cases p Hp) as [[s ->]|(s & m & e & ->)]; cbn; eauto. }
  destruct Hprod as [sp Hprod].
  pose proof (FloatAxioms.add_spec lo (0 * p)%float) as Hadd.
  rewrite Hprod in Hadd. unfold SF64add in Hadd.
  rewrite FloatAxioms.eqb_spec.
  destruct (is_finite_cases lo Hlo) as [[s Hs]|(s & m & e & Hs)];
    rewrite Hs in Hadd |- *.
  - assert (Hsum : exists s', Prim2SF (lo + 0 * p)%float = S754_zero s' /\
                              (s = false -> s' = false)).
    { rewrite Hadd. destruct s, sp; cbn; eauto. }
    destruct Hsum as (s' & Hsum & Hsign). rewrite Hsum. split; [reflexivity|].
    intros Hnz. apply Prim2SF_inj. rewrite Hs, Hsum.
    destruct s; [|rewrite Hsign; reflexivity].
    exfalso. apply Hnz, Prim2SF_inj. rewrite Hs. vm_compute. reflexivity.
  - cbn in Hadd. rewrite Hadd. split; [apply SFeqb_refl_finite|].
    intros _. apply Prim2SF_inj. rewrite Hs. exact Hadd.
Qed.

(** The sample point of pixel 0 along an axis. *)
Lemma coordinate_origin (lo hi : float) (n : Z) :
  is_finite lo = true -> is_finite (pixel_size lo hi n) = true ->
  (coordinate lo hi n 0 =? lo)%float = true /\
  (lo <> neg_zero -> coordinate lo hi n 0 = lo).
Proof.
  intros Hlo Hp. unfold coordinate.
  replace (float_of_int 0) with 0%float by (vm_compute; reflexivity).
  apply add_zero_product; assumption.
Qed.

(** An infinite float is one of the two infinities. *)
Lemma is_infinity_cases (a : float) :
  is_infinity a = true -> exists s, Prim2SF a = S754_infinity s.
Proof.
  unfold is_infinity. rewrite FloatAxioms.eqb_spec, abs_spec.
  replace (Prim2SF infinity) with (S754_infinity false) by (vm_compute; reflexivity).
  destruct (Prim2SF a) as [s|s| |s m e]; cbn; try discriminate.
  intros _. exists s. reflexivity.
Qed.

Lemma Prim2SF_is_nan (a : float) : Prim2SF a = S754_nan -> is_nan a = true.
Proof.
  intros Ha. unfold is_nan. rewrite FloatAxioms.eqb_spec, Ha. reflexivity.
Qed.

(** The sample point of pixel 0 along an axis whose extent [hi - lo] has
    overflowed: the pixel size is infinite or not a number, 0 times it is
    not a number, and neither is the sum. *)
Lemma coordinate_origin_overflow (lo hi : float) (n : Z) :
  is_infinity (hi - lo) = true -> is_nan (coordinate lo hi n 0) = true.
Proof.
  intros Hinf. destruct (is_infinity_cases _ Hinf) as [s Hs].
  apply Prim2SF_is_nan. unfold coordinate, pixel_size.
  replace (float_of_int 0) with 0%float by (vm_compute; reflexivity).
  rewrite FloatAxioms.add_spec, FloatAxioms.mul_spec, FloatAxioms.div_spec, Hs.
  replace (Prim2SF 0) with (S754_zero false) by (vm_compute; reflexivity).
  assert (Hdiv : SF64div (S754_infinity s) (Prim2SF (float_of_int n)) = S754_nan \/
                 exists s', SF64div (S754_infinity s) (Prim2SF (float_of_int n))
                            = S754_infinity s').
  { destruct (Prim2SF (float_of_int n)) as [s'|s'| |s' m e]; cbn; eauto. }
  destruct Hdiv as [->|[s' ->]]; cbn; destruct (Prim2SF lo); reflexivity.
Qed.

(** C5, as the code has it. For a cap that fits a C [long] the renderer
    completes; it samples pixel [(x, y)] at
    [(min_x + x*pixel_size_x, min_y + y*pixel_size_y)], the top-left corner
    with no centre offset, with [pixel_size_x = (max_x-min_x)/width] and
    [pixel_size_y = (max_y-min_y)/height], and stores the result in row [y],
    column [x]; this holds for the last pixel [(width-1, height-1)] as for
    any other.  Along an axis whose lower bound and pixel size are finite,
    pixel 0 is sampled at a point numerically equal to the lower bound, and
    at the bound itself unless it is the negative zero; along an axis whose
    extent [max - min] is infinite, pixel 0 is sampled at a NaN. *)
Theorem create_fractal_pixel_mapping (min_x max_x min_y max_y : float)
    (h w : nat) (iters : Z) (image : ndarray) :
  shaped h w image -> (0 < h)%nat -> (0 < w)%nat ->
  - 2 ^ 63 <= iters < 2 ^ 63 ->
  let pixel_size_x := ((max_x - min_x) / float_of_int (Z.of_nat w))%float in
  let pixel_size_y := ((max_y - min_y) / float_of_int (Z.of_nat h))%float in
  exists a',
    create_fractal min_x max_x min_y max_y image iters = Ok a' /\
    (forall x y, 0 <= x < Z.of_nat w -> 0 <= y < Z.of_nat h ->
       rows a' !! Z.to_nat y ≫= (fun row => row !! Z.to_nat x)
       = Some (uint8 (mandel (min_x + float_of_int x * pixel_size_x)%float
                             (min_y + float_of_int y * pixel_size_y)%float
                             iters))) /\
    (is_finite min_x = true -> is_finite pixel_size_x = true ->
       (min_x + float_of_int 0 * pixel_size_x =? min_x)%float = true /\
       (min_x <> neg_zero ->
        (min_x + float_of_int 0 * pixel_size_x)%float = min_x)) /\
    (is_finite min_y = true -> is_finite pixel_size_y = true ->
       (min_y + float_of_int 0 * pixel_size_y =? min_y)%float = true /\
       (min_y <> neg_zero ->
        (min_y + float_of_int 0 * pixel_size_y)%float = min_y)) /\
    (is_infinity (max_x - min_x) = true ->
       is_nan (min_x + float_of_int 0 * pixel_size_x) = true) /\
    (is_infinity (max_y - min_y) = true ->
       is_nan (min_y + float_of_int 0 * pixel_size_y) = true).
Proof.
  intros Ha Hh Hw Hit pixel_size_x pixel_size_y.
  destruct (create_fractal_pixels min_x max_x min_y max_y h w iters image
              Ha Hh Hw Hit)
    as (a' & Hrun & (Hwf & H0 & H1) & Hpix).
  exists a'. split; [exact Hrun|]. split.
  - intros x y Hx Hy.
    rewrite <- getitem_in_range by (rewrite ?H0, ?H1; lia).
    apply Hpix; assumption.
  - split; [|split; [|split]].
    + apply (coordinate_origin min_x max_x (Z.of_nat w)).
    + apply (coordinate_origin min_y max_y (Z.of_nat h)).
    + apply (coordinate_origin_overflow min_x max_x (Z.of_nat w)).
    + apply (coordinate_origin_overflow min_y max_y (Z.of_nat h)).
Qed.

Lemma create_fractal_pixel_mapping_witness :
  exists a',
    create_fractal (-2) 1 (-1) 1 (zeros 1024 1536) 20 = Ok a' /\
    rows a' !! 0%nat ≫= (fun row => row !! 0%nat)
    = Some (uint8 (mandel (-2) (-1) 20)) /\
    rows a' !! 512%nat ≫= (fun row => row !! 768%nat)
    = Some (uint8 (mandel (-0.5) 0 20)).
Proof.
  destruct (create_fractal_pixel_mapping (-2) 1 (-1) 1 1024 1536 20
              (zeros 1024 1536) (shaped_zeros 1024 1536)
              ltac:(lia) ltac:(lia) ltac:(lia))
    as (a' & Hrun & Hpix & _).
  exists a'. split; [exact Hrun|]. split.
  - refine (eq_trans (Hpix 0 0 _ _) _); [lia|lia|].
    vm_compute. reflexivity.
  - refine (eq_trans (Hpix 768 512 _ _) _); [lia|lia|].
    vm_compute. reflexivity.
Defined.

(** C5 as stated fails on a viewport whose extent overflows: with
    [min_x = -2^1023 < max_x = 2^1023] and one pixel, [max_x - min_x] is
    infinite, the sample point of pixel (0, 0) is not a number, and the
    pixel holds the cap 20 where the point [(min_x, min_y)] escapes at
    index 0. *)
Lemma pixel_origin_not_at_min_corner :
  (-0x1p1023 <? 0x1p1023)%float = true /\
  (coordinate (-0x1p1023) 0x1p1023 1 0 =? -0x1p1023)%float = false /\
  create_fractal (-0x1p1023) 0x1p1023 (-1) 1 (zeros 1 1) 20
  = Ok (NDArray 1 1 [[20]] [(0, 0)]) /\
  uint8 (mandel (-0x1p1023) (-1) 20) = 0.
Proof. vm_compute. repeat split; reflexivity. Qed.

(** ** Stored values *)

(** C8, as the code has it. After the renderer has run with a cap that
    fits a C [long], every element of the [uint8] buffer holds the low eight
    bits of its pixel's iteration count; for a cap in [0, 255] that is the
    count itself, which lies in [0, cap] and which clamping to [0, 255]
    leaves alone. *)
Theorem create_fractal_stores_low_byte (min_x max_x min_y max_y : float)
    (h w : nat) (iters : Z) (image : ndarray) :
  shaped h w image -> (0 < h)%nat -> (0 < w)%nat ->
  - 2 ^ 63 <= iters < 2 ^ 63 ->
  exists a',
    create_fractal min_x max_x min_y max_y image iters = Ok a' /\
    forall x y, 0 <= x < Z.of_nat w -> 0 <= y < Z.of_nat h ->
      let count := pixel_count min_x max_x min_y max_y h w iters x y in
      getitem a' y x = Some (count `mod` 256) /\
      (0 <= iters <= 255 ->
       getitem a' y x = Some count /\ 0 <= count <= iters /\
       count = clamp255 count).
Proof.
  intros Ha Hh Hw Hfit.
  destruct (create_fractal_pixels min_x max_x min_y max_y h w iters image
              Ha Hh Hw Hfit)
    as (a' & Hrun & _ & Hpix).
  exists a'. split; [exact Hrun|].
  intros x y Hx Hy count. split; [exact (Hpix x y Hx Hy)|].
  intros Hit.
  assert (Hcount : 0 <= count <= iters).
  { apply mandel_range. lia. }
  split; [|split; [exact Hcount|unfold clamp255; lia]].
  rewrite (Hpix x y Hx Hy). unfold uint8. fold count.
  rewrite Z.mod_small by lia. reflexivity.
Qed.

(** The end-to-end scenario: viewport (-2, 1, -1, 1), 1536 by 1024, cap 20;
    every value of the output lies in [0, 20]. *)
Lemma create_fractal_stores_low_byte_witness :
  exists a',
    create_fractal (-2) 1 (-1) 1 (zeros 1024 1536) 20 = Ok a' /\
    forall x y, 0 <= x < 1536 -> 0 <= y < 1024 ->
      exists v, getitem a' y x = Some v /\ 0 <= v <= 20.
Proof.
  destruct (create_fractal_stores_low_byte (-2) 1 (-1) 1 1024 1536 20
              (zeros 1024 1536) (shaped_zeros 1024 1536)
              ltac:(lia) ltac:(lia) ltac:(lia))
    as (a' & Hrun & Hpix).
  exists a'. split; [exact Hrun|].
  intros x y Hx Hy.
  destruct (Hpix x y ltac:(lia) ltac:(lia)) as [_ Hsmall].
  destruct (Hsmall ltac:(lia)) as (Hget & Hrange & _).
  eexists. split; [exact Hget|exact Hrange].
Defined.

(** C8 as stated fails above 255: with cap 300 the origin's count is 300,
    which clamps to 255, and the buffer holds 44. *)
Lemma create_fractal_wraps_not_clamps :
  pixel_count 0 1 0 1 1 1 300 0 0 = 300 /\
  clamp255 300 = 255 /\
  create_fractal 0 1 0 1 (zeros 1 1) 300 = Ok (NDArray 1 1 [[44]] [(0, 0)]).
Proof. vm_compute. repeat split; reflexivity. Qed.

(** ** Inputs the specification calls malformed *)

(** C7, as the code has it. The renderer does not inspect the viewport or
    the cap.  On an image with an empty axis [create_fractal] raises
    [ZeroDivisionError] at the division by that extent, before any store,
    and leaves the image as it was.  On any other image, for every viewport,
    also one whose minima are not below its maxima, and for every cap that
    fits a C [long], also zero or negative, it completes and stores every
    pixel. *)
Theorem create_fractal_validates_nothing (min_x max_x min_y max_y : float)
    (iters : Z) (image : ndarray) :
  wf image ->
  ((shape0 image = 0 \/ shape1 image = 0)%nat ->
   create_fractal min_x max_x min_y max_y image iters
   = Raise ZeroDivisionError image) /\
  ((0 < shape0 image)%nat -> (0 < shape1 image)%nat ->
   - 2 ^ 63 <= iters < 2 ^ 63 ->
   exists a',
     create_fractal min_x max_x min_y max_y image iters = Ok a' /\
     forall x y, 0 <= x < Z.of_nat (shape1 image) ->
                 0 <= y < Z.of_nat (shape0 image) ->
       getitem a' y x
       = Some (uint8 (pixel_count min_x max_x min_y max_y
                        (shape0 image) (shape1 image) iters x y))).
Proof.
  intros Hwf. split.
  - apply create_fractal_stays_on_empty_axis.
  - intros Hh Hw Hit.
    destruct (create_fractal_pixels min_x max_x min_y max_y
                (shape0 image) (shape1 image) iters image)
      as (a' & Hrun & _ & Hpix);
      [split; [exact Hwf|split; reflexivity]|lia|lia|exact Hit|].
    exists a'. split; [exact Hrun|exact Hpix].
Qed.

Lemma create_fractal_validates_nothing_witness :
  create_fractal 1 (-2) 1 (-1) (zeros 0 3) 0
  = Raise ZeroDivisionError (zeros 0 3) /\
  exists a', create_fractal 1 (-2) 1 (-1) (zeros 2 3) 0 = Ok a'.
Proof.
  split.
  - apply (create_fractal_validates_nothing 1 (-2) 1 (-1) 0 (zeros 0 3)
             (wf_zeros 0 3)).
    left. reflexivity.
  - destruct (create_fractal_validates_nothing 1 (-2) 1 (-1) 0 (zeros 2 3)
                (wf_zeros 2 3)) as (_ & Hrun).
    destruct Hrun as (a' & Hrun & _); [cbn; lia|cbn; lia|lia|].
    exists a'. exact Hrun.
Defined.

(** C7 as stated fails: with a viewport whose minima are above its maxima
    the renderer completes and fills the buffer, and so it does with a cap
    of zero or a negative cap; no error is raised. *)
Lemma create_fractal_accepts_malformed_input :
  (-2 <=? 1)%float = true /\ (-1 <=? 1)%float = true /\
  create_fractal 1 (-2) 1 (-1) (zeros 2 3) 20
  = Ok (NDArray 2 3 [[1; 20; 2]; [1; 20; 20]]
          [(0, 0); (1, 0); (0, 1); (1, 1); (0, 2); (1, 2)]) /\
  create_fractal (-2) 1 (-1) 1 (zeros 2 3) 0
  = Ok (NDArray 2 3 [[0; 0; 0]; [0; 0; 0]]
          [(0, 0); (1, 0); (0, 1); (1, 1); (0, 2); (1, 2)]) /\
  create_fractal (-2) 1 (-1) 1 (zeros 2 3) (-1)
  = Ok (NDArray 2 3 [[255; 255; 255]; [255; 255; 255]]
          [(0, 0); (1, 0); (0, 1); (1, 1); (0, 2); (1, 2)]).
Proof. vm_compute. repeat split; reflexivity. Qed.

(** ** Further properties of the escape function *)





Lemma is_nan_Prim2SF (x : float) : is_nan x = true -> Prim2SF x = S754_nan.
Proof.
  unfold is_nan. rewrite FloatAxioms.eqb_spec.
  destruct (Prim2SF x) as [s|s| |s m e]; [| |reflexivity|].
  - discriminate.
  - destruct s; discriminate.
  - rewrite SFeqb_refl_finite. discriminate.
Qed.

Lemma SF64add_nan_r (s : spec_float) : SF64add s S754_nan = S754_nan.
Proof. destruct s; reflexivity. Qed.

Lemma SF64add_nan_l (s : spec_float) : SF64add S754_nan s = S754_nan.
Proof. reflexivity. Qed.

Lemma SF64mul_nan_l (s : spec_float) : SF64mul S754_nan s = S754_nan.
Proof. reflexivity. Qed.

Lemma leb_nan_r (a b : float) : Prim2SF b = S754_nan -> (a <=? b)%float = false.
Proof.
  intros Hb. rewrite FloatAxioms.leb_spec, Hb.
  unfold SFleb. destruct (Prim2SF a); reflexivity.
Qed.

(** After an update with a [c] that has a NaN component the test fails. *)
Lemma escaped_nan (x y : float) (z : complex) :
  is_nan x = true \/ is_nan y = true ->
  escaped (c_sum (c_prod z z) (Complex x y)) = false.
Proof.
  intros Hnan. unfold escaped. cbn [c_sum c_prod real imag].
  apply leb_nan_r. rewrite FloatAxioms.add_spec.
  destruct Hnan as [Hx|Hy].
  - apply is_nan_Prim2SF in Hx.
    rewrite (FloatAxioms.mul_spec (_ + x) (_ + x)), (FloatAxioms.add_spec _ x), Hx.
    rewrite SF64add_nan_r. reflexivity.
  - apply is_nan_Prim2SF in Hy.
    rewrite (FloatAxioms.mul_spec (_ + y) (_ + y)), (FloatAxioms.add_spec _ y), Hy.
    rewrite SF64add_nan_r, SF64mul_nan_l, SF64add_nan_r. reflexivity.
Qed.



(** X2. A point with a NaN coordinate never passes the test: [mandel]
    returns the cap, whatever the cap. *)
Theorem mandel_nan_reports_cap (x y : float) (max_iters : Z) :
  is_nan x = true \/ is_nan y = true -> mandel x y max_iters = max_iters.
Proof.
  intros Hnan. unfold mandel. rewrite mandel_no_escape; [reflexivity|].
  intros j _. unfold escapes_at. cbn [orbit].
  rewrite escaped_nan by exact Hnan. discriminate.
Qed.

Lemma mandel_nan_reports_cap_witness :
  is_nan nan = true /\ mandel nan 0.25 20 = 20.
Proof.
  split; [reflexivity|].
  apply (mandel_nan_reports_cap nan 0.25 20). left. reflexivity.
Defined.

(** ** Further properties of the renderers *)

Lemma mandel_nonpositive_cap (x y : float) (n : Z) :
  n <= 0 -> mandel_run x y n = (n, 0%nat).
Proof.
  intros Hn. rewrite mandel_no_escape by (intros j Hj; lia).
  f_equal. lia.
Qed.

Lemma mandel_le_cap_le (x y : float) (n1 n2 : Z) :
  n1 <= n2 -> mandel x y n1 <= mandel x y n2.
Proof.
  intros Hle. unfold mandel.
  destruct (mandel_run_cases x y n1) as [(i & Hi & Hfirst & ->)|[Hnone ->]];
    cbn [fst].
  - rewrite (mandel_escape x y n2 i); [cbn [fst]; lia|lia|exact Hfirst].
  - destruct (mandel_run_cases x y n2) as [(i' & Hi' & Hfirst' & ->)|[_ ->]];
      cbn [fst]; [|exact Hle].
    destruct (decide (n1 <= i')) as [Hge|Hlt]; [exact Hge|].
    destruct Hfirst' as (_ & He' & _).
    exfalso. apply (Hnone i'); [lia|exact He'].
Qed.

Lemma for_in_skip {A S : Type} (l : list A) (s : S) :
  for_in l (fun _ s' => Ok s') s = Ok s.
Proof. induction l as [|i l IH]; [reflexivity|exact IH]. Qed.


Lemma range3_empty (start stop step : Z) :
  stop <= start -> range3 start stop step = [].
Proof.
  intros Hle. unfold range3. destruct (decide (0 < step)) as [Hstep|_]; [|reflexivity].
  rewrite seqZ_nil; [reflexivity|].
  apply Z.lt_succ_r, Z.div_lt_upper_bound; lia.
Qed.

Lemma length_stores (xs ys : list Z) :
  length (stores xs ys) = (length xs * length ys)%nat.
Proof.
  unfold stores. induction xs as [|x xs IH]; [reflexivity|].
  rewrite bind_cons, length_app, IH. cbn [length Nat.mul]. f_equal.
  clear IH. induction ys as [|y ys IHy]; [reflexivity|].
  rewrite bind_cons. cbn [app length]. f_equal. exact IHy.
Qed.

Lemma times_written_app (p : Z * Z) (l k : list (Z * Z)) :
  times_written p (l ++ k) = (times_written p l + times_written p k)%nat.
Proof.
  unfold times_written. induction l as [|q l IH]; [reflexivity|].
  cbn [app]. destruct (decide (q = p)) as [Heq|Hne].
  - rewrite !filter_cons_True by exact Heq. cbn [length]. rewrite IH. reflexivity.
  - rewrite !filter_cons_False by exact Hne. exact IH.
Qed.

Lemma length_range (n : Z) : length (range n) = Z.to_nat n.
Proof. apply length_seqZ. Qed.

(** What a launch leaves in every pixel, for any cap. *)
Lemma launch_device_pixels (min_x max_x min_y max_y : float) (h w : nat)
    (iters : Z) (cfg : config) (schedule : list thread) (image : ndarray) :
  positive_config cfg -> schedule ≡ₚ threads cfg -> shaped h w image ->
  exists a',
    launch cfg schedule min_x max_x min_y max_y image iters = Ok a' /\
    shaped h w a' /\
    writes a' = writes image ++ (schedule ≫= thread_stores cfg h w) /\
    forall x y, 0 <= x < Z.of_nat w -> 0 <= y < Z.of_nat h ->
      getitem a' y x
      = Some (uint8 (device_pixel_count min_x max_x min_y max_y h w iters x y)).
Proof.
  intros Hpos Hperm Ha. pose proof Ha as (_ & Ha0 & Ha1).
  destruct (launch_painted min_x max_x min_y max_y h w iters cfg schedule image Hpos)
    as (a' & Hrun & Hwf & H0 & H1 & Hlog & Hpix); [|exact Ha|].
  { intros t Ht. rewrite Hperm in Ht. apply elem_of_threads, Ht. }
  exists a'. split; [exact Hrun|]. split; [split; [exact Hwf|split; congruence]|].
  split; [exact Hlog|].
  intros x y Hx Hy.
  destruct (Hpix y x) as [Hin _]; [lia..|]. apply Hin.
  destruct (pixel_owner cfg (Z.of_nat w) (Z.of_nat h) x y Hpos Hx Hy)
    as (t & (Ht & Hcol & Hline) & _).
  exists t. rewrite Hperm. tauto.
Qed.

(** The first store of a value that does not fit a C [long] ends the
    renderer: [OverflowError], and the image is as it was. *)
Lemma create_fractal_first_store_overflows (min_x max_x min_y max_y : float)
    (iters : Z) (image : ndarray) :
  (0 < shape0 image)%nat -> (0 < shape1 image)%nat ->
  ~ (- 2 ^ 63
     <= pixel_count min_x max_x min_y max_y (shape0 image) (shape1 image)
          iters 0 0
     < 2 ^ 63) ->
  create_fractal min_x max_x min_y max_y image iters
  = Raise OverflowError image.
Proof.
  intros Hh Hw Hbig. unfold create_fractal, truediv.
  rewrite !decide_False by lia.
  unfold range. rewrite (seqZ_cons 0 (Z.of_nat (shape1 image))) by lia.
  rewrite (seqZ_cons 0 (Z.of_nat (shape0 image))) by lia.
  cbn [for_in]. cbv zeta.
  unfold setitem. rewrite !index_in_range by lia.
  unfold pixel_count, coordinate, pixel_size in Hbig.
  rewrite decide_False by exact Hbig. reflexivity.
Qed.

(** X3. With a cap that is zero or negative [mandel] runs no iteration and
    returns the cap.  When the cap fits a C [long] the renderer then fills
    the whole buffer with the cap's low eight bits: 0 for cap 0, 255 for
    cap -1; when it does not (below -2^63) the first store raises
    [OverflowError] and the buffer is left as it was. *)
Theorem create_fractal_nonpositive_cap (min_x max_x min_y max_y : float)
    (h w : nat) (iters : Z) (image : ndarray) :
  shaped h w image -> (0 < h)%nat -> (0 < w)%nat -> iters <= 0 ->
  (forall x y, mandel x y iters = iters /\ mandel_updates x y iters = 0%nat) /\
  (- 2 ^ 63 <= iters ->
   exists a',
     create_fractal min_x max_x min_y max_y image iters = Ok a' /\
     forall x y, 0 <= x < Z.of_nat w -> 0 <= y < Z.of_nat h ->
       getitem a' y x = Some (iters `mod` 256)) /\
  (iters < - 2 ^ 63 ->
   create_fractal min_x max_x min_y max_y image iters
   = Raise OverflowError image).
Proof.
  intros Ha Hh Hw Hit.
  assert (Hm : forall x y, mandel x y iters = iters).
  { intros x y. unfold mandel.  rewrite mandel_nonpositive_cap by exact Hit.
    reflexivity. }
  split; [|split].
  - intros x y. split; [apply Hm|].
    unfold mandel_updates. rewrite mandel_nonpositive_cap by exact Hit.
    reflexivity.
  - intros Hfit.
    destruct (create_fractal_pixels min_x max_x min_y max_y h w iters image
                Ha Hh Hw ltac:(lia)) as (a' & Hrun & _ & Hpix).
    exists a'. split; [exact Hrun|].
    intros x y Hx Hy. rewrite (Hpix x y Hx Hy).
    unfold pixel_count. rewrite Hm. reflexivity.
  - intros Hbig. destruct Ha as (_ & Ha0 & Ha1).
    apply create_fractal_first_store_overflows; [lia|lia|].
    unfold pixel_count. rewrite Hm. lia.
Qed.

Lemma create_fractal_nonpositive_cap_witness :
  (exists a',
     create_fractal (-2) 1 (-1) 1 (zeros 1024 1536) (-1) = Ok a' /\
     forall x y, 0 <= x < 1536 -> 0 <= y < 1024 -> getitem a' y x = Some 255) /\
  create_fractal (-2) 1 (-1) 1 (zeros 1024 1536) (- 2 ^ 63 - 1)
  = Raise OverflowError (zeros 1024 1536).
Proof.
  split.
  - pose proof (create_fractal_nonpositive_cap (-2) 1 (-1) 1 1024 1536 (-1)
                  (zeros 1024 1536) (shaped_zeros 1024 1536)
                  ltac:(lia) ltac:(lia) ltac:(lia)) as (_ & Hfill & _).
    destruct (Hfill ltac:(lia)) as (a' & Hrun & Hpix).
    exists a'. split; [exact Hrun|].
    intros x y Hx Hy. exact (Hpix x y ltac:(lia) ltac:(lia)).
  - pose proof (create_fractal_nonpositive_cap (-2) 1 (-1) 1 1024 1536
                  (- 2 ^ 63 - 1)
                  (zeros 1024 1536) (shaped_zeros 1024 1536)
                  ltac:(lia) ltac:(lia) ltac:(lia)) as (_ & _ & Hraise).
    exact (Hraise ltac:(lia)).
Defined.

(** X4. For a cap that fits a C [long] the CPU renderer stores column by
    column, every pixel exactly once: its store log is the image's followed
    by the positions of column 0 from top to bottom, then column 1, and so
    on, [width * height] stores in all. *)
Theorem create_fractal_store_order (min_x max_x min_y max_y : float)
    (h w : nat) (iters : Z) (image : ndarray) :
  shaped h w image -> (0 < h)%nat -> (0 < w)%nat ->
  - 2 ^ 63 <= iters < 2 ^ 63 ->
  exists a',
    create_fractal min_x max_x min_y max_y image iters = Ok a' /\
    writes a' = writes image ++
                (x ← seqZ 0 (Z.of_nat w); y ← seqZ 0 (Z.of_nat h); [(y, x)]) /\
    Z.of_nat (length (writes a'))
    = Z.of_nat (length (writes image)) + Z.of_nat w * Z.of_nat h /\
    forall x y, 0 <= x < Z.of_nat w -> 0 <= y < Z.of_nat h ->
      times_written (y, x) (writes a')
      = S (times_written (y, x) (writes image)).
Proof.
  intros Ha Hh Hw Hit.
  destruct (create_fractal_pixels_of_counts min_x max_x min_y max_y h w iters
              image Ha Hh Hw) as (a' & Hrun & _ & Hlog & _).
  { intros x y _ _. apply mandel_fits, Hit. }
  exists a'. split; [exact Hrun|]. split; [exact Hlog|]. split.
  - rewrite Hlog, length_app, length_stores, !length_range, !Nat2Z.id.
    rewrite Nat2Z.inj_add, Nat2Z.inj_mul. reflexivity.
  - intros x y Hx Hy. rewrite Hlog, times_written_app.
    rewrite (times_written_NoDup (y, x) (stores _ _)).
    + lia.
    + apply NoDup_stores; apply NoDup_seqZ.
    + apply elem_of_stores. rewrite !elem_of_range. split; assumption.
Qed.

Lemma create_fractal_store_order_witness :
  exists a',
    create_fractal (-2) 1 (-1) 1 (zeros 1024 1536) 20 = Ok a' /\
    Z.of_nat (length (writes a')) = 1536 * 1024.
Proof.
  destruct (create_fractal_store_order (-2) 1 (-1) 1 1024 1536 20
              (zeros 1024 1536) (shaped_zeros 1024 1536)
              ltac:(lia) ltac:(lia) ltac:(lia))
    as (a' & Hrun & _ & Hlen & _).
  exists a'. split; [exact Hrun|].
  refine (eq_trans Hlen _). reflexivity.
Defined.

(** X5. A launch performs the same stores as the sequential renderer, in
    another order: on a fresh array its store log is a permutation of the
    positions of the image, [width * height] stores in all, whatever the
    launch geometry and the order of the threads. *)
Theorem launch_stores_permutation (min_x max_x min_y max_y : float)
    (h w : nat) (iters : Z) (cfg : config) (schedule : list thread)
    (image : ndarray) :
  positive_config cfg -> schedule ≡ₚ threads cfg ->
  shaped h w image -> writes image = [] ->
  exists d_image,
    launch cfg schedule min_x max_x min_y max_y image iters = Ok d_image /\
    writes d_image
    ≡ₚ (x ← seqZ 0 (Z.of_nat w); y ← seqZ 0 (Z.of_nat h); [(y, x)]) /\
    Z.of_nat (length (writes d_image)) = Z.of_nat w * Z.of_nat h.
Proof.
  intros Hpos Hperm Ha Hfresh.
  destruct (launch_device_pixels min_x max_x min_y max_y h w iters cfg schedule
              image Hpos Hperm Ha) as (d_image & Hrun & _ & Hlog & _).
  rewrite Hfresh in Hlog. cbn [app] in Hlog.
  assert (Hp : writes d_image ≡ₚ stores (range (Z.of_nat w)) (range (Z.of_nat h))).
  { rewrite Hlog. apply NoDup_Permutation.
    - apply NoDup_launch_stores; assumption.
    - apply NoDup_stores; apply NoDup_seqZ.
    - intros [y x]. rewrite elem_of_stores, !elem_of_range. split.
      + intros Hin. apply list_elem_of_bind in Hin. destruct Hin as (t & Hin & Ht).
        rewrite Hperm in Ht.
        exact (thread_stores_owner h w cfg Hpos t x y Ht Hin).
      + intros [Hx Hy]. apply launch_stores_cover; assumption. }
  exists d_image. split; [exact Hrun|]. split; [exact Hp|].
  rewrite Hp, length_stores, !length_range, !Nat2Z.id, Nat2Z.inj_mul.
  reflexivity.
Qed.

Lemma launch_stores_permutation_witness :
  let cfg := Config (Dim 32 16) (Dim 32 8) in
  exists d_image,
    launch cfg (threads cfg) (-2) 1 (-1) 1 (zeros 1024 1536) 20 = Ok d_image /\
    Z.of_nat (length (writes d_image)) = 1536 * 1024.
Proof.
  intros cfg.
  assert (Hcfg : positive_config cfg) by (unfold positive_config; cbn; lia).
  destruct (launch_stores_permutation (-2) 1 (-1) 1 1024 1536 20 cfg
              (threads cfg) (zeros 1024 1536) Hcfg (reflexivity _)
              (shaped_zeros 1024 1536) eq_refl)
    as (d_image & Hrun & _ & Hlen).
  exists d_image. split; [exact Hrun|].
  refine (eq_trans Hlen _). reflexivity.
Defined.

(** X6. For a cap that fits a C [long] the CPU renderer overwrites: what
    it leaves in the buffer does not depend on what the buffer held, it
    keeps the buffer's shape, and rendering again over its own output with
    the same arguments changes nothing. *)
Theorem create_fractal_overwrites (min_x max_x min_y max_y : float)
    (h w : nat) (iters : Z) (image image' : ndarray) :
  shaped h w image -> shaped h w image' -> (0 < h)%nat -> (0 < w)%nat ->
  - 2 ^ 63 <= iters < 2 ^ 63 ->
  exists a a' again,
    create_fractal min_x max_x min_y max_y image iters = Ok a /\
    create_fractal min_x max_x min_y max_y image' iters = Ok a' /\
    create_fractal min_x max_x min_y max_y a iters = Ok again /\
    shaped h w a /\ rows a = rows a' /\ rows again = rows a.
Proof.
  intros Ha Ha' Hh Hw Hit.
  destruct (create_fractal_pixels min_x max_x min_y max_y h w iters image
              Ha Hh Hw Hit) as (a & Hrun & Hsa & Hpix).
  destruct (create_fractal_pixels min_x max_x min_y max_y h w iters image'
              Ha' Hh Hw Hit) as (a' & Hrun' & Hsa' & Hpix').
  destruct (create_fractal_pixels min_x max_x min_y max_y h w iters a
              Hsa Hh Hw Hit) as (again & Hrun2 & Hs2 & Hpix2).
  exists a, a', again.
  split; [exact Hrun|]. split; [exact Hrun'|]. split; [exact Hrun2|].
  split; [exact Hsa|]. split.
  - apply (rows_ext h w); [exact Hsa|exact Hsa'|].
    intros y x Hy Hx. rewrite Hpix, Hpix' by assumption. reflexivity.
  - apply (rows_ext h w); [exact Hs2|exact Hsa|].
    intros y x Hy Hx. rewrite Hpix, Hpix2 by assumption. reflexivity.
Qed.

(** The notebook's second call, [create_fractal(-2.0, -1.7, -0.1, 0.1,
    image, 20)] on the image the first call filled, gives what it gives on a
    fresh image.  The bounds are the binary64 values of [-1.7], [-0.1] and
    [0.1]. *)
Lemma create_fractal_overwrites_witness :
  exists first zoom fresh,
    create_fractal (-2) 1 (-1) 1 (zeros 1024 1536) 20 = Ok first /\
    create_fractal (-2) (-0x1.b333333333333p+0) (-0x1.999999999999ap-4)
      0x1.999999999999ap-4 first 20 = Ok zoom /\
    create_fractal (-2) (-0x1.b333333333333p+0) (-0x1.999999999999ap-4)
      0x1.999999999999ap-4 (zeros 1024 1536) 20 = Ok fresh /\
    rows zoom = rows fresh.
Proof.
  destruct (create_fractal_pixels (-2) 1 (-1) 1 1024 1536 20 (zeros 1024 1536)
              (shaped_zeros 1024 1536) ltac:(lia) ltac:(lia) ltac:(lia))
    as (first & Hfirst & Hshaped & _).
  destruct (create_fractal_overwrites (-2) (-0x1.b333333333333p+0) (-0x1.999999999999ap-4)
      0x1.999999999999ap-4 1024 1536 20
              first (zeros 1024 1536) Hshaped (shaped_zeros 1024 1536)
              ltac:(lia) ltac:(lia) ltac:(lia))
    as (zoom & fresh & _ & Hzoom & Hfresh & _ & _ & Hrows & _).
  exists first, zoom, fresh.
  split; [exact Hfirst|]. split; [exact Hzoom|]. split; [exact Hfresh|exact Hrows].
Defined.

(** X7. What a launch leaves in the buffer depends neither on the order in
    which the device runs the threads nor on what the buffer held. *)
Theorem launch_schedule_independent (min_x max_x min_y max_y : float)
    (h w : nat) (iters : Z) (cfg : config) (schedule schedule' : list thread)
    (image image' : ndarray) :
  positive_config cfg ->
  schedule ≡ₚ threads cfg -> schedule' ≡ₚ threads cfg ->
  shaped h w image -> shaped h w image' ->
  exists d d',
    launch cfg schedule min_x max_x min_y max_y image iters = Ok d /\
    launch cfg schedule' min_x max_x min_y max_y image' iters = Ok d' /\
    shaped h w d /\ rows d = rows d'.
Proof.
  intros Hpos Hperm Hperm' Ha Ha'.
  destruct (launch_device_pixels min_x max_x min_y max_y h w iters cfg schedule
              image Hpos Hperm Ha) as (d & Hrun & Hsd & _ & Hpix).
  destruct (launch_device_pixels min_x max_x min_y max_y h w iters cfg schedule'
              image' Hpos Hperm' Ha') as (d' & Hrun' & Hsd' & _ & Hpix').
  exists d, d'. split; [exact Hrun|]. split; [exact Hrun'|]. split; [exact Hsd|].
  apply (rows_ext h w); [exact Hsd|exact Hsd'|].
  intros y x Hy Hx. rewrite Hpix, Hpix' by assumption. reflexivity.
Qed.

Lemma launch_schedule_independent_witness :
  let cfg := Config (Dim 32 16) (Dim 32 8) in
  exists d d',
    launch cfg (threads cfg) (-2) 1 (-1) 1 (zeros 1024 1536) 20 = Ok d /\
    launch cfg (reverse (threads cfg)) (-2) 1 (-1) 1 (zeros 1024 1536) 20
    = Ok d' /\
    rows d = rows d'.
Proof.
  intros cfg.
  assert (Hcfg : positive_config cfg) by (unfold positive_config; cbn; lia).
  destruct (launch_schedule_independent (-2) 1 (-1) 1 1024 1536 20 cfg
              (threads cfg) (reverse (threads cfg))
              (zeros 1024 1536) (zeros 1024 1536) Hcfg (reflexivity _)
              (reverse_Permutation _)
              (shaped_zeros 1024 1536) (shaped_zeros 1024 1536))
    as (d & d' & Hrun & Hrun' & _ & Hrows).
  exists d, d'. split; [exact Hrun|]. split; [exact Hrun'|exact Hrows].
Defined.



(** X10. A thread whose start index lies beyond the image on either axis
    stores nothing: the kernel returns with the array as it was.  This is
    what the surplus threads of a launch larger than the image do. *)
Theorem thread_beyond_image_stores_nothing (cfg : config) (t : thread)
    (min_x max_x min_y max_y : float) (image : ndarray) (iters : Z) :
  Z.of_nat (shape1 image) <= fst (grid2 cfg t) \/
  Z.of_nat (shape0 image) <= snd (grid2 cfg t) ->
  mandel_kernel cfg t min_x max_x min_y max_y image iters = Ok image.
Proof.
  intros Hout. unfold mandel_kernel.
  destruct (grid2 cfg t) as [startX startY]. cbn [fst snd] in Hout.
  destruct Hout as [Hx|Hy].
  - rewrite (range3_empty startX) by exact Hx. reflexivity.
  - rewrite (range3_empty startY) by exact Hy. cbn [for_in].
    apply for_in_skip.
Qed.

Lemma thread_beyond_image_stores_nothing_witness :
  let cfg := Config (Dim 2 2) (Dim 2 2) in
  let t := Thread (Dim 0 1) (Dim 1 0) in
  t ∈ threads cfg /\
  mandel_kernel cfg t (-2) 1 (-1) 1 (zeros 2 3) 20 = Ok (zeros 2 3).
Proof.
  intros cfg t. split.
  - apply elem_of_threads. unfold valid_thread. cbn. lia.
  - apply (thread_beyond_image_stores_nothing cfg t (-2) 1 (-1) 1 (zeros 2 3) 20).
    right. cbn. lia.
Defined.

(** X11. For caps between 0 and 255, raising the cap never lowers a value
    of the rendered buffer. *)
Theorem create_fractal_cap_monotone (min_x max_x min_y max_y : float)
    (h w : nat) (iters iters' : Z) (image : ndarray) :
  shaped h w image -> (0 < h)%nat -> (0 < w)%nat ->
  0 <= iters <= iters' -> iters' <= 255 ->
  exists a a',
    create_fractal min_x max_x min_y max_y image iters = Ok a /\
    create_fractal min_x max_x min_y max_y image iters' = Ok a' /\
    forall x y, 0 <= x < Z.of_nat w -> 0 <= y < Z.of_nat h ->
      exists v v', getitem a y x = Some v /\ getitem a' y x = Some v' /\
                   0 <= v <= v' /\ v' <= iters'.
Proof.
  intros Ha Hh Hw Hle Hmax.
  destruct (create_fractal_pixels min_x max_x min_y max_y h w iters image
              Ha Hh Hw ltac:(lia)) as (a & Hrun & _ & Hpix).
  destruct (create_fractal_pixels min_x max_x min_y max_y h w iters' image
              Ha Hh Hw ltac:(lia)) as (a' & Hrun' & _ & Hpix').
  exists a, a'. split; [exact Hrun|]. split; [exact Hrun'|].
  intros x y Hx Hy.
  set (cx := coordinate min_x max_x (Z.of_nat w) x).
  set (cy := coordinate min_y max_y (Z.of_nat h) y).
  pose proof (mandel_range cx cy iters ltac:(lia)) as Hr.
  pose proof (mandel_range cx cy iters' ltac:(lia)) as Hr'.
  pose proof (mandel_le_cap_le cx cy iters iters' ltac:(lia)) as Hmono.
  exists (mandel cx cy iters), (mandel cx cy iters').
  rewrite (Hpix x y Hx Hy), (Hpix' x y Hx Hy).
  unfold pixel_count, uint8. fold cx cy.
  rewrite !Z.mod_small by lia.
  repeat split; lia.
Qed.

Lemma create_fractal_cap_monotone_witness :
  exists a a',
    create_fractal (-2) 1 (-1) 1 (zeros 1024 1536) 20 = Ok a /\
    create_fractal (-2) 1 (-1) 1 (zeros 1024 1536) 200 = Ok a' /\
    forall x y, 0 <= x < 1536 -> 0 <= y < 1024 ->
      exists v v', getitem a y x = Some v /\ getitem a' y x = Some v' /\
                   v <= v'.
Proof.
  destruct (create_fractal_cap_monotone (-2) 1 (-1) 1 1024 1536 20 200
              (zeros 1024 1536) (shaped_zeros 1024 1536)
              ltac:(lia) ltac:(lia) ltac:(lia) ltac:(lia))
    as (a & a' & Hrun & Hrun' & Hpix).
  exists a, a'. split; [exact Hrun|]. split; [exact Hrun'|].
  intros x y Hx Hy.
  destruct (Hpix x y ltac:(lia) ltac:(lia)) as (v & v' & Hv & Hv' & Hle & _).
  exists v, v'. split; [exact Hv|]. split; [exact Hv'|lia].
Defined.

Lemma length_range3 (start stop step : Z) :
  0 < step ->
  Z.of_nat (length (range3 start stop step))
  = Z.max 0 ((stop - start + step - 1) `div` step).
Proof.
  intros Hstep. unfold range3. rewrite decide_True by exact Hstep.
  rewrite length_fmap, length_seqZ. lia.
Qed.

(** X12. The grid-stride loops share the work evenly: on a fresh array no
    thread of a launch stores more than
    [ceil(width / gridX) * ceil(height / gridY)] pixels, where [gridX] and
    [gridY] are the strides [gridDim * blockDim] of the two axes. *)
Theorem thread_store_bound (min_x max_x min_y max_y : float) (h w : nat)
    (iters : Z) (cfg : config) (t : thread) (image : ndarray) :
  positive_config cfg -> t ∈ threads cfg ->
  shaped h w image -> writes image = [] ->
  let gridX := dim_x (gridDim cfg) * dim_x (blockDim cfg) in
  let gridY := dim_y (gridDim cfg) * dim_y (blockDim cfg) in
  Z.of_nat (length (written
              (mandel_kernel cfg t min_x max_x min_y max_y image iters)))
  <= ((Z.of_nat w + gridX - 1) `div` gridX)
     * ((Z.of_nat h + gridY - 1) `div` gridY).
Proof.
  intros Hpos Ht Ha Hfresh gridX gridY.
  rewrite (written_mandel_kernel min_x max_x min_y max_y h w iters cfg Hpos)
    by assumption.
  unfold thread_stores. rewrite length_stores, Nat2Z.inj_mul.
  unfold thread_columns, thread_lines. fold gridX gridY.
  pose proof Hpos as (Hgx & Hgy & Hbx & Hby).
  apply elem_of_threads in Ht. destruct Ht as (Hb1 & Hb2 & Ht1 & Ht2).
  assert (HgX : 0 < gridX) by (unfold gridX; nia).
  assert (HgY : 0 < gridY) by (unfold gridY; nia).
  rewrite !length_range3 by assumption.
  cbn [grid2 fst snd].
  set (sx := dim_x (blockDim cfg) * dim_x (blockIdx t) + dim_x (threadIdx t)).
  set (sy := dim_y (blockDim cfg) * dim_y (blockIdx t) + dim_y (threadIdx t)).
  assert (Hsx : 0 <= sx) by (unfold sx; nia).
  assert (Hsy : 0 <= sy) by (unfold sy; nia).
  pose proof (Z.div_le_mono (Z.of_nat w - sx + gridX - 1) (Z.of_nat w + gridX - 1)
                gridX HgX ltac:(lia)) as Hcx.
  pose proof (Z.div_le_mono (Z.of_nat h - sy + gridY - 1) (Z.of_nat h + gridY - 1)
                gridY HgY ltac:(lia)) as Hcy.
  pose proof (Z.div_pos (Z.of_nat w + gridX - 1) gridX ltac:(lia) HgX) as Hpx.
  pose proof (Z.div_pos (Z.of_nat h + gridY - 1) gridY ltac:(lia) HgY) as Hpy.
  apply Z.mul_le_mono_nonneg; lia.
Qed.

(** In the notebook's launch each of the 131072 threads stores at most
    [2 * 8 = 16] of the 1572864 pixels. *)
Lemma thread_store_bound_witness :
  let cfg := Config (Dim 32 16) (Dim 32 8) in
  let t := Thread (Dim 31 15) (Dim 31 7) in
  Z.of_nat (length (written
              (mandel_kernel cfg t (-2) 1 (-1) 1 (zeros 1024 1536) 20)))
  <= 16.
Proof.
  intros cfg t.
  assert (Hcfg : positive_config cfg) by (unfold positive_config; cbn; lia).
  assert (Ht : t ∈ threads cfg).
  { apply elem_of_threads. unfold valid_thread. cbn. lia. }
  refine (Z.le_trans _ _ _
            (thread_store_bound (-2) 1 (-1) 1 1024 1536 20 cfg t (zeros 1024 1536)
               Hcfg Ht (shaped_zeros 1024 1536) eq_refl) _).
  vm_compute. discriminate.
Defined.

(** X13. For a cap between 0 and 255 the rendered buffer can be read back:
    a value below the cap is the first index at which that pixel's sample
    point escapes, and a value equal to the cap says the point does not
    escape below the cap. *)
Theorem create_fractal_values_meaning (min_x max_x min_y max_y : float)
    (h w : nat) (iters : Z) (image : ndarray) :
  shaped h w image -> (0 < h)%nat -> (0 < w)%nat -> 0 <= iters <= 255 ->
  exists a,
    create_fractal min_x max_x min_y max_y image iters = Ok a /\
    forall x y, 0 <= x < Z.of_nat w -> 0 <= y < Z.of_nat h ->
      let cx := coordinate min_x max_x (Z.of_nat w) x in
      let cy := coordinate min_y max_y (Z.of_nat h) y in
      exists v, getitem a y x = Some v /\
        ((v < iters /\ first_escape cx cy v) \/
         (v = iters /\ forall j, 0 <= j < iters -> ~ escapes_at cx cy j)).
Proof.
  intros Ha Hh Hw Hit.
  destruct (create_fractal_pixels min_x max_x min_y max_y h w iters image
              Ha Hh Hw ltac:(lia)) as (a & Hrun & _ & Hpix).
  exists a. split; [exact Hrun|].
  intros x y Hx Hy cx cy.
  exists (mandel cx cy iters). split.
  - rewrite (Hpix x y Hx Hy). unfold pixel_count, uint8. fold cx cy.
    pose proof (mandel_range cx cy iters ltac:(lia)) as Hr.
    rewrite Z.mod_small by lia. reflexivity.
  - unfold mandel.
    destruct (mandel_run_cases cx cy iters) as [(i & Hi & Hfirst & ->)|[Hnone ->]];
      cbn [fst].
    + left. split; [lia|exact Hfirst].
    + right. split; [reflexivity|exact Hnone].
Qed.

Lemma create_fractal_values_meaning_witness :
  exists a,
    create_fractal (-2) 1 (-1) 1 (zeros 1024 1536) 20 = Ok a /\
    forall x y, 0 <= x < 1536 -> 0 <= y < 1024 ->
      exists v, getitem a y x = Some v /\ 0 <= v <= 20.
Proof.
  destruct (create_fractal_values_meaning (-2) 1 (-1) 1 1024 1536 20
              (zeros 1024 1536) (shaped_zeros 1024 1536)
              ltac:(lia) ltac:(lia) ltac:(lia)) as (a & Hrun & Hpix).
  exists a. split; [exact Hrun|].
  intros x y Hx Hy.
  destruct (Hpix x y ltac:(lia) ltac:(lia)) as (v & Hv & Hcase).
  exists v. split; [exact Hv|].
  destruct Hcase as [[Hlt (Hnonneg & _)]|[-> _]]; lia.
Defined.
